(** * clean_identical_files: a shallow embedding and its properties

    The program walks a directory tree, buckets the image files by size,
    partitions every bucket into groups of byte-identical files and moves
    all members of a group but one to a target directory.

    The Python data is modelled value for value: a [str] path is a [string],
    a [set] of paths a [gset string], the [dict]s are [gmap]s, file contents
    are [list byte].  The operating system is an explicit value: a finite
    map from path strings to nodes.  Exceptions are threaded through a small
    error monad, the file system and the log through explicit state
    passing. *)

From Stdlib Require Import Strings.String Strings.Ascii Strings.Byte List Arith Lia.
From stdpp Require Import base option list sorting gmap sets strings fin_maps.

Local Open Scope string_scope.

(* [set_solver] clears hypotheses twice on this version of stdpp. *)
Set Warnings "-clear-no-such-hyp".

(** ** Exceptions and outcomes *)

Inductive exn :=
  | FileNotFoundError (p : string)
  | NotADirectoryError (p : string)
  | PermissionError (p : string)
  | FileExistsError (p : string)
  | ShutilError (p : string)
  | IndexError.

(** The result of running a piece of the program: a value, a raised
    exception, or [OutOfFuel] when a loop of the model was cut short.  The
    loops of the program all terminate; this is proved for each of them
    ([os_walk_total], [group_photo_set_total]). *)
Inductive outcome (A : Type) :=
  | Ret (a : A)
  | Raise (e : exn)
  | OutOfFuel.
Arguments Ret {A} a.
Arguments Raise {A} e.
Arguments OutOfFuel {A}.

Definition bind {A B} (m : outcome A) (k : A -> outcome B) : outcome B :=
  match m with
  | Ret a => k a
  | Raise e => Raise e
  | OutOfFuel => OutOfFuel
  end.

Notation "'let*' x ':=' m 'in' k" := (bind m (fun x => k))
  (at level 10, x pattern, m at level 100, k at level 200).

(** A [for] loop whose body may raise. *)
Fixpoint for_each {A S} (body : S -> A -> outcome S) (xs : list A) (s : S)
  : outcome S :=
  match xs with
  | [] => Ret s
  | x :: xs' => let* s' := body s x in for_each body xs' s'
  end.

(** ** The file system *)

(** Under a path there is a regular file with its bytes, or a directory
    that can be listed or not.  Regular files can be read, and there are
    no symbolic links: on these file systems [stat] and [filecmp.cmp] fail
    on a missing path only, and every name a listing gives can be
    stat-ed. *)
Inductive node :=
  | File (data : list byte)
  | Dir (readable : bool).

Abbreviation filesystem := (gmap string node).

#[global] Instance byte_eq_dec : EqDecision byte := Byte.byte_eq_dec.
#[global] Instance node_eq_dec : EqDecision node.
Proof. solve_decision. Defined.

(** *** Path strings *)

(** [str.endswith]: [suffix] is a suffix of [s]. *)
Definition endswith (s suffix : string) : bool :=
  bool_decide
    (list_ascii_of_string suffix `suffix_of` list_ascii_of_string s).

(** [str.startswith]. *)
Fixpoint startswith (s pre : string) : bool :=
  match pre with
  | EmptyString => true
  | String c pre' =>
      match s with
      | EmptyString => false
      | String d s' => Ascii.eqb d c && startswith s' pre'
      end
  end.

(** [os.path.join] on two components (POSIX). *)
Definition os_path_join (a b : string) : string :=
  if startswith b "/" then b
  else if String.eqb a "" || endswith a "/" then a ++ b
  else a ++ "/" ++ b.

Definition is_slash (c : ascii) : bool := Ascii.eqb c "/".

Fixpoint take_until_slash (l : list ascii) : list ascii :=
  match l with
  | [] => []
  | c :: l' => if is_slash c then [] else c :: take_until_slash l'
  end.

Fixpoint drop_until_slash (l : list ascii) : list ascii :=
  match l with
  | [] => []
  | c :: l' => if is_slash c then l else drop_until_slash l'
  end.

Fixpoint drop_slashes (l : list ascii) : list ascii :=
  match l with
  | [] => []
  | c :: l' => if is_slash c then drop_slashes l' else l
  end.

(** [os.path.split] (POSIX), computed on the reversed path: the tail is
    what follows the last slash, the head what precedes it, its trailing
    slashes stripped unless it is made of slashes only. *)
Definition os_path_split (p : string) : string * string :=
  let r := rev (list_ascii_of_string p) in
  let head_r := drop_until_slash r in
  let head_r' :=
    if forallb is_slash head_r then head_r else drop_slashes head_r in
  (string_of_list_ascii (rev head_r'),
   string_of_list_ascii (rev (take_until_slash r))).

Definition os_path_basename (p : string) : string := snd (os_path_split p).
Definition os_path_dirname (p : string) : string := fst (os_path_split p).

Definition has_slash (s : string) : bool :=
  existsb is_slash (list_ascii_of_string s).

(** [os.fspath] of a [str] is the [str] itself. *)
Definition os_fspath (p : string) : string := p.

(** *** Queries *)

Definition os_path_exists (fs : filesystem) (p : string) : bool :=
  bool_decide (is_Some (fs !! p)).

Definition os_path_isdir (fs : filesystem) (p : string) : bool :=
  match fs !! p with
  | Some (Dir _) => true
  | _ => false
  end.

(** [os.stat(p).st_size].  The size of a directory depends on the file
    system; the model reports 0 (the program never asks for it). *)
Definition stat_size (fs : filesystem) (p : string) : outcome nat :=
  match fs !! p with
  | Some (File data) => Ret (length data)
  | Some (Dir _) => Ret 0
  | None => Raise (FileNotFoundError p)
  end.

(** [filecmp.cmp(f1, f2, shallow=False)]: both files are stat-ed (a missing
    one raises), anything but two regular files compares unequal, different
    sizes compare unequal, otherwise the contents are compared byte by
    byte. *)
Definition filecmp_cmp (fs : filesystem) (f1 f2 : string) : outcome bool :=
  match fs !! f1 with
  | None => Raise (FileNotFoundError f1)
  | Some n1 =>
      match fs !! f2 with
      | None => Raise (FileNotFoundError f2)
      | Some n2 =>
          match n1, n2 with
          | File d1, File d2 =>
              if negb (Nat.eqb (length d1) (length d2)) then Ret false
              else Ret (bool_decide (d1 = d2))
          | _, _ => Ret false
          end
      end
  end.

(** The name under which [p] is listed in directory [d], if it is one of
    its entries. *)
Definition child_name (d p : string) : option string :=
  let n := os_path_basename p in
  if negb (String.eqb n "") && negb (has_slash n)
     && String.eqb (os_path_join d n) p
  then Some n else None.

(** [os.scandir(d)], split as [os.walk] does into the names of the
    directories and of the other entries. *)
Definition os_scandir (fs : filesystem) (d : string)
  : outcome (list string * list string) :=
  match fs !! d with
  | None => Raise (FileNotFoundError d)
  | Some (File _) => Raise (NotADirectoryError d)
  | Some (Dir false) => Raise (PermissionError d)
  | Some (Dir true) =>
      let entries := map_to_list fs in
      Ret (omap (fun '(p, nd) =>
                   match nd with Dir _ => child_name d p | File _ => None end)
                entries,
           omap (fun '(p, nd) =>
                   match nd with File _ => child_name d p | Dir _ => None end)
                entries)
  end.

(** The walks of several directories, one after the other. *)
Fixpoint walk_each {T} (walk : string -> outcome (list T))
    (tops : list string) : outcome (list T) :=
  match tops with
  | [] => Ret []
  | d :: tops' =>
      let* here := walk d in
      let* rest := walk_each walk tops' in
      Ret (here ++ rest)%list
  end.

(** [os.walk(top)], top-down, with the default [onerror=None]: a directory
    that cannot be listed is skipped silently.  [fuel] bounds the depth of
    the descent. *)
Fixpoint os_walk_from (fuel : nat) (fs : filesystem) (top : string)
  : outcome (list (string * list string * list string)) :=
  match fuel with
  | 0 => OutOfFuel
  | S fuel' =>
      match os_scandir fs top with
      | Ret (dirs, nondirs) =>
          let* below :=
            walk_each (os_walk_from fuel' fs) (map (os_path_join top) dirs) in
          Ret ((top, dirs, nondirs) :: below)
      | _ => Ret []
      end
  end.

Definition os_walk (fs : filesystem) (top : string)
  : outcome (list (string * list string * list string)) :=
  os_walk_from (S (size fs)) fs top.

(** *** Updates *)

(** The parent directory of [p] must exist, unless [p] is relative to the
    current directory or lies directly under the root. *)
Definition check_parent (fs : filesystem) (p : string) : outcome unit :=
  let d := os_path_dirname p in
  if String.eqb d "" || forallb is_slash (list_ascii_of_string d) then Ret tt
  else
    match fs !! d with
    | Some (Dir _) => Ret tt
    | Some (File _) => Raise (NotADirectoryError p)
    | None => Raise (FileNotFoundError p)
    end.

(** [os.mkdir]: the empty path names nothing, and is refused. *)
Definition os_mkdir (fs : filesystem) (p : string) : outcome filesystem :=
  if String.eqb p "" then Raise (FileNotFoundError p)
  else if os_path_exists fs p then Raise (FileExistsError p)
  else
    let* _ := check_parent fs p in
    Ret (<[p := Dir true]> fs).

(** The proper ancestors of a path, outermost first: its prefixes that stop
    just before a slash and do not themselves end in one. *)
Fixpoint ancestors_go (seen_rev rest : list ascii) : list string :=
  match rest with
  | [] => []
  | c :: rest' =>
      let here :=
        match seen_rev with
        | last :: _ =>
            if is_slash c && negb (is_slash last)
            then [string_of_list_ascii (rev seen_rev)] else []
        | [] => []
        end in
      (here ++ ancestors_go (c :: seen_rev) rest')%list
  end.

Definition ancestors (p : string) : list string :=
  ancestors_go [] (list_ascii_of_string p).

(** [os.makedirs(name)] with [exist_ok=False]: the missing ancestors are
    created, then the leaf. *)
Definition os_makedirs (fs : filesystem) (name : string)
  : outcome filesystem :=
  let* fs1 :=
    for_each (fun fs' d => if os_path_exists fs' d then Ret fs'
                           else os_mkdir fs' d)
             (ancestors name) fs in
  os_mkdir fs1 name.

(** [p] is [src] or lies below it. *)
Definition is_under (src p : string) : bool :=
  String.eqb p src || startswith p (src ++ "/").

(** Renaming a directory renames everything below it. *)
Definition rename_tree (fs : filesystem) (src dst : string) : filesystem :=
  list_to_map
    (map (fun '(p, nd) =>
            (if is_under src p
             then dst ++ substring (String.length src)
                           (String.length p - String.length src) p
             else p, nd))
         (map_to_list fs)).

(** [shutil.move(src, dst)]: into [dst] when it is a directory (refusing to
    replace an entry of the same name there), onto [dst] otherwise.  The
    result is the file system after the move and the path moved to; a
    refused move leaves the file system as it was. *)
Definition shutil_move (fs : filesystem) (src dst : string)
  : outcome (filesystem * string) :=
  match fs !! src with
  | None => Raise (FileNotFoundError src)
  | Some nd =>
      let into := os_path_isdir fs dst in
      let real_dst :=
        if into then os_path_join dst (os_path_basename src) else dst in
      if into && os_path_exists fs real_dst then Raise (ShutilError real_dst)
      else
        let* _ := if into then Ret tt else check_parent fs real_dst in
        match nd with
        | File data => Ret (<[real_dst := File data]> (delete src fs), real_dst)
        | Dir _ =>
            if is_under src real_dst then Raise (ShutilError src)
            else if os_path_exists fs real_dst
                 then Raise (FileExistsError real_dst)
                 else Ret (rename_tree fs src real_dst, real_dst)
        end
  end.

(** ** The program *)

(** [set.pop()] removes and returns an arbitrary member.  Which one is left
    open: the program is modelled for every way of choosing. *)
Class SetPop := {
  set_pop : gset string -> string;
  set_pop_elem : forall s : gset string, s <> ∅ -> set_pop s ∈ s
}.

(** The argument of [add_photo_into_map_by_filesize]: a path string or an
    object with a [path] attribute. *)
Inductive entry :=
  | EntryStr (s : string)
  | EntryObj (path : string).

(** [os.path.getsize(p)] is [os.stat(p).st_size]. *)
Definition os_path_getsize (fs : filesystem) (p : string) : outcome nat :=
  stat_size fs p.

Definition add_photo_into_map_by_filesize (fs : filesystem)
    (base_names : gmap nat (gset string)) (e : entry)
  : outcome (gmap nat (gset string)) :=
  let* (fsize, path) :=
    match e with
    | EntryStr s => let* fsize := stat_size fs s in Ret (fsize, s)
    | EntryObj p => let* fsize := os_path_getsize fs p in Ret (fsize, p)
    end in
  match base_names !! fsize with
  | None => Ret (<[fsize := {[path]}]> base_names)
  | Some paths => Ret (<[fsize := paths ∪ {[path]}]> base_names)
  end.

Definition photo_extension (e : string) : bool :=
  endswith e ".arw" || endswith e ".nef" || endswith e ".jpg"
  || endswith e ".tif".

Definition define_files_map (fs : filesystem) (directory : string)
  : outcome (gmap nat (gset string)) :=
  let* triples := os_walk fs directory in
  for_each
    (fun base_names '(root, dirs, files) =>
       for_each
         (fun base_names file =>
            let e := os_fspath (os_path_join root file) in
            if photo_extension e
            then add_photo_into_map_by_filesize fs base_names (EntryStr e)
            else Ret base_names)
         files base_names)
    triples ∅.

Section grouping.
Context `{SetPop}.

Definition group_equal_files (fs : filesystem)
    (photo_set_original : gset string) : outcome (gset string) :=
  if Nat.leb (size photo_set_original) 0 then Ret ∅
  else
    let photo_selected := set_pop photo_set_original in
    let photo_set := photo_set_original ∖ {[photo_selected]} in
    for_each
      (fun identical_photo_set photo_candidate =>
         let* same := filecmp_cmp fs photo_selected photo_candidate in
         if same then Ret (identical_photo_set ∪ {[photo_candidate]})
         else Ret identical_photo_set)
      (elements photo_set) {[photo_selected]}.

(** The [while group_photos_copy:] loop; the groups come out in the order
    in which they are appended. *)
Fixpoint group_photo_set_loop (fuel : nat) (fs : filesystem)
    (group_photos_copy : gset string) : outcome (list (gset string)) :=
  if decide (group_photos_copy = ∅) then Ret []
  else
    match fuel with
    | 0 => OutOfFuel
    | S fuel' =>
        let* group_of_identical_photos :=
          group_equal_files fs group_photos_copy in
        let* rest :=
          group_photo_set_loop fuel' fs
            (group_photos_copy ∖ group_of_identical_photos) in
        Ret (group_of_identical_photos :: rest)
    end.

(** The loop on one bucket.  Every turn removes the seed at least, so as
    many turns as the bucket has members are enough
    ([group_photo_set_total]). *)
Definition group_photo_set (fs : filesystem) (group_photos : gset string)
  : outcome (list (gset string)) :=
  group_photo_set_loop (size group_photos) fs group_photos.

Definition group_all_identical_photos (fs : filesystem)
    (photos_map_by_basename : gmap nat (gset string))
  : outcome (gmap nat (list (gset string))) :=
  for_each
    (fun identical_photos_map '(k, group_photos) =>
       let* groups := group_photo_set fs group_photos in
       Ret (<[k := groups]> identical_photos_map))
    (map_to_list photos_map_by_basename) ∅.
End grouping.

(** *** Relocation *)

(** The calls made on the logger, in order, whatever the level shown. *)
Inductive log_record :=
  | InfoAnalyzing (directory : string)
  | InfoTarget (target_directory : string)
  | DebugGroups (identical_photos : gmap nat (list (gset string)))
  | DebugMoving
  | DebugToBeMoved (f : string)
  | DebugMoved (moved : string)
  | ErrorFailureMoving (f : string) (e : exn)
  | InfoDuplicated (num_files_duplicated : nat)
  | LoggedException (e : exn).

Record state := State {
  disk : filesystem;
  log : list log_record
}.

Definition emit (r : log_record) (st : state) : state :=
  State (disk st) (log st ++ [r])%list.

(** One turn of the loop of [move_file_list]: the [try] around it catches
    whatever the move raises and logs it. *)
Definition move_one (destination : string) (dry_run : bool)
    (acc : state * nat) (f : string) : state * nat :=
  let '(st, num_files_moved) := acc in
  if os_path_exists (disk st) f then
    let num_files_moved := num_files_moved + 1 in
    if dry_run then (emit (DebugToBeMoved f) st, num_files_moved)
    else
      match shutil_move (disk st) f destination with
      | Ret (fs', moved) =>
          (emit (DebugMoved moved) (State fs' (log st)), num_files_moved)
      | Raise e => (emit (ErrorFailureMoving f e) st, num_files_moved)
      | OutOfFuel => (st, num_files_moved)
      end
  else (st, num_files_moved).

Definition move_file_list (st : state) (files_to_be_moved : list string)
    (destination : string) (num_files_moved : nat) (dry_run : bool)
  : state * nat :=
  fold_left (move_one destination dry_run) files_to_be_moved
    (st, num_files_moved).

(** [sorted(xs, reverse=...)] on strings. *)
Definition sorted (xs : list string) (reverse : bool) : list string :=
  if reverse then merge_sort (flip String.le) xs
  else merge_sort String.le xs.

(** [list.pop()]: the last element is removed; nothing to remove raises. *)
Definition exclude_one_image_to_not_delete_it
    (identical_photos_sorted : list string) : outcome (list string) :=
  match identical_photos_sorted with
  | [] => Raise IndexError
  | _ => Ret (removelast identical_photos_sorted)
  end.

(** The body of the inner loop of [move_identical_files]. *)
Definition move_group (target_directory : string) (dry_run : bool)
    (acc : state * nat) (identical_photos_set : gset string)
  : outcome (state * nat) :=
  let '(st, n_moved) := acc in
  if Nat.ltb 1 (size identical_photos_set) then
    let move_longest_filename := true in
    let identical_photos_sorted :=
      sorted (elements identical_photos_set) move_longest_filename in
    let* identical_photos_sorted :=
      exclude_one_image_to_not_delete_it identical_photos_sorted in
    Ret (move_file_list st identical_photos_sorted target_directory n_moved
           dry_run)
  else Ret acc.

(** The two nested loops of [move_identical_files]. *)
Definition move_groups (st : state)
    (identical_photos_dict : gmap nat (list (gset string)))
    (target_directory : string) (dry_run : bool) : outcome (state * nat) :=
  for_each
    (fun acc '(k, v) => for_each (move_group target_directory dry_run) v acc)
    (map_to_list identical_photos_dict) (st, 0).

Definition move_identical_files (st : state)
    (identical_photos_dict : gmap nat (list (gset string)))
    (target_directory : string) (dry_run : bool) : outcome (state * nat) :=
  let* fs1 :=
    if negb (os_path_exists (disk st) target_directory)
    then os_makedirs (disk st) target_directory
    else Ret (disk st) in
  move_groups (State fs1 (log st)) identical_photos_dict target_directory
    dry_run.

(** *** The run *)

(** What a Python function hands back to its caller. *)
Inductive pyvalue :=
  | PyNone
  | PyInt (n : nat).

Section run.
Context `{SetPop}.

(** The result is the state reached and what the function returns or
    raises; a raise leaves the state as it was when the exception
    occurred. *)
Definition clean_identical_files (st : state)
    (directory target_directory : string) (dry_run : bool)
  : state * outcome pyvalue :=
  let st := emit (InfoAnalyzing directory) st in
  let st := if String.eqb target_directory "" then st
            else emit (InfoTarget target_directory) st in
  match define_files_map (disk st) directory with
  | Ret map_of_files_with_same_size =>
      match group_all_identical_photos (disk st)
              map_of_files_with_same_size with
      | Ret identical_photos =>
          let st := emit (DebugGroups identical_photos) st in
          let st := emit DebugMoving st in
          match move_identical_files st identical_photos target_directory
                  dry_run with
          | Ret (st, num_files_duplicated) =>
              (emit (InfoDuplicated num_files_duplicated) st, Ret PyNone)
          | Raise e => (st, Raise e)
          | OutOfFuel => (st, OutOfFuel)
          end
      | Raise e => (st, Raise e)
      | OutOfFuel => (st, OutOfFuel)
      end
  | Raise e => (st, Raise e)
  | OutOfFuel => (st, OutOfFuel)
  end.

(** [sys.exit(arg)]: [None] is exit status 0, an integer is the status
    (of which the system keeps the low eight bits). *)
Definition sys_exit (arg : pyvalue) : nat :=
  match arg with
  | PyNone => 0
  | PyInt n => n mod 256
  end.

(** The [try] block of the script around the run [r]: an exception is
    logged and the exit status is 1, what the run returns is handed to
    [sys.exit]. *)
Definition exit_status (r : state * outcome pyvalue) : state * outcome nat :=
  match r with
  | (st', Ret v) => (st', Ret (sys_exit v))
  | (st', Raise e) => (emit (LoggedException e) st', Ret 1)
  | (st', OutOfFuel) => (st', OutOfFuel)
  end.

Definition main (st : state) (directory target_directory : string)
    (dry_run : bool) : state * outcome nat :=
  exit_status (clean_identical_files st directory target_directory dry_run).
End run.

(** *** The logger *)

(** The levels of [logging], with their numbers. *)
Inductive level :=
  | DEBUG
  | INFO
  | WARNING
  | ERROR
  | CRITICAL.

Definition levelno (l : level) : nat :=
  match l with
  | DEBUG => 10
  | INFO => 20
  | WARNING => 30
  | ERROR => 40
  | CRITICAL => 50
  end.

(** What [logging.basicConfig] is called with. *)
Record basic_config := BasicConfig {
  format : string;
  basic_level : level
}.

Definition configure_logger (silent verbose : bool) : basic_config :=
  let basic_level :=
    if silent then ERROR
    else if verbose then DEBUG else INFO in
  let fmt := "[%(asctime)-15s] [%(levelname)s] %(name)s: %(message)s" in
  BasicConfig fmt basic_level.

(** The level at which the program makes each of its calls on the logger
    ([log.exception] logs at [ERROR]). *)
Definition record_level (r : log_record) : level :=
  match r with
  | InfoAnalyzing _ | InfoTarget _ | InfoDuplicated _ => INFO
  | DebugGroups _ | DebugMoving | DebugToBeMoved _ | DebugMoved _ => DEBUG
  | ErrorFailureMoving _ _ | LoggedException _ => ERROR
  end.

(** [Logger.isEnabledFor]: a record passes when its level is not below
    the configured one. *)
Definition is_enabled_for (cfg : basic_config) (l : level) : bool :=
  Nat.leb (levelno (basic_level cfg)) (levelno l).

(** The records of a log that pass the level of a configuration and so
    reach the handler that [logging.basicConfig] installs. *)
Definition handled (cfg : basic_config) (lg : list log_record)
  : list log_record :=
  List.filter (fun r => is_enabled_for cfg (record_level r)) lg.

(** ** Vocabulary of the properties *)

(** The body of the loop of [group_equal_files]. *)
Definition collect (fs : filesystem) (seed : string)
    (identical_photo_set : gset string) (photo_candidate : string)
  : outcome (gset string) :=
  let* same := filecmp_cmp fs seed photo_candidate in
  if same then Ret (identical_photo_set ∪ {[photo_candidate]})
  else Ret identical_photo_set.

(** No two sets of the list share an element. *)
Fixpoint pairwise_disjoint (gs : list (gset string)) : Prop :=
  match gs with
  | [] => True
  | g :: gs' => g ## ⋃ gs' /\ pairwise_disjoint gs'
  end.

(** The paths of the file system longer than [top]: the descent below
    [top] only meets such paths, each level a longer one. *)
Definition longer_paths (fs : filesystem) (top : string) : gset string :=
  filter (fun p => String.length top < String.length p) (dom fs).

(** The paths the program builds from a walk, in the order of the two
    nested loops of [define_files_map]. *)
Definition walked_entries (ts : list (string * list string * list string))
  : list string :=
  flat_map (fun '(root, _, files) => map (os_path_join root) files) ts.

(** [p] is a member of the set stored under key [k]. *)
Definition in_bucket (m : gmap nat (gset string)) (k : nat) (p : string)
  : Prop :=
  exists s, m !! k = Some s /\ p ∈ s.

(** What [define_files_map] does with one path. *)
Definition inventory_step (fs : filesystem)
    (base_names : gmap nat (gset string)) (e : string)
  : outcome (gmap nat (gset string)) :=
  if photo_extension e
  then add_photo_into_map_by_filesize fs base_names (EntryStr e)
  else Ret base_names.

(** What an update leaves alone: every entry that was there is there
    unchanged, and whatever appears is a fresh directory. *)
Definition only_adds_directories (fs fs' : filesystem) : Prop :=
  forall p, match fs !! p with
            | Some nd => fs' !! p = Some nd
            | None => fs' !! p = None \/ fs' !! p = Some (Dir true)
            end.


(** [p] is a regular file. *)
Definition is_file (fs : filesystem) (p : string) : Prop :=
  exists data, fs !! p = Some (File data).

(** The number of files a list of groups gives to move. *)
Definition planned (gs : list (gset string)) : nat :=
  sum_list_with (fun g => size g - 1) gs.

(** The groups of a dictionary, in the order of the two nested loops of
    [move_identical_files]. *)
Definition all_groups (d : gmap nat (list (gset string)))
  : list (gset string) :=
  flat_map snd (map_to_list d).

(** The members of [s] stored like [p]: the files with the bytes of
    [p]. *)
Definition same_content (fs : filesystem) (s : gset string) (p : string)
  : gset string :=
  filter (fun q => fs !! q = fs !! p) s.

(** The first step of the relocation stage: the file system once the
    target directory is there. *)
Definition target_made (fs : filesystem) (target_directory : string)
  : outcome filesystem :=
  if negb (os_path_exists fs target_directory)
  then os_makedirs fs target_directory
  else Ret fs.

(** The state in which [clean_identical_files] starts the relocation. *)
Definition before_moving (st : state) (directory target_directory : string)
    (identical_photos : gmap nat (list (gset string))) : state :=
  let st := emit (InfoAnalyzing directory) st in
  let st := if String.eqb target_directory "" then st
            else emit (InfoTarget target_directory) st in
  emit DebugMoving (emit (DebugGroups identical_photos) st).

(** [walks_into fs top root]: the descent of [os.walk] from [top] comes to
    [root], through directories that can be listed. *)
Inductive walks_into (fs : filesystem) : string -> string -> Prop :=
  | walks_here top : walks_into fs top top
  | walks_below top d root :
      fs !! top = Some (Dir true) ->
      d <> "" -> has_slash d = false ->
      os_path_isdir fs (os_path_join top d) = true ->
      walks_into fs (os_path_join top d) root ->
      walks_into fs top root.

(** [p] is a regular file directly in a directory the walk from [top]
    comes to and can list. *)
Definition listed_below (fs : filesystem) (top p : string) : Prop :=
  exists root name,
    walks_into fs top root /\ fs !! root = Some (Dir true) /\
    name <> "" /\ has_slash name = false /\
    p = os_path_join root name /\ is_file fs p.

(** The path an [entry] stands for. *)
Definition entry_path (e : entry) : string :=
  match e with
  | EntryStr s => s
  | EntryObj p => p
  end.

(** The list [move_identical_files] hands to [move_file_list] for a group:
    nothing for a group of one or none. *)
Definition candidates_of (g : gset string) : list string :=
  if Nat.ltb 1 (size g) then removelast (sorted (elements g) true) else [].

Definition all_candidates (gs : list (gset string)) : list string :=
  flat_map candidates_of gs.

(** [q] shares a group with a lesser path. *)
Definition has_lesser_copy (gs : list (gset string)) (q : string) : Prop :=
  exists g q', g ∈ gs /\ q ∈ g /\ q' ∈ g /\ q' <> q /\ String.le q' q.

(** What [move_file_list] adds to the log in a given mode. *)
Definition move_record (dry_run : bool) (r : log_record) : Prop :=
  match r with
  | DebugToBeMoved _ => dry_run = true
  | DebugMoved _ | ErrorFailureMoving _ _ => dry_run = false
  | _ => False
  end.

(** ** A worked example *)

(** One way of popping: the first member in the order of [elements]. *)
Definition first_member : SetPop.
Proof.
  refine {| set_pop := fun s => default "" (head (elements s)) |}.
  intros s Hs. destruct (elements s) as [|x l] eqn:E.
  - apply elements_empty_inv, leibniz_equiv in E. contradiction.
  - simpl. apply elem_of_elements. rewrite E. left.
Defined.

Definition bytes (s : string) : list byte := list_byte_of_string s.

(** Two copies of one photo, under a short and a long name, and a third
    photo of the same size. *)
Definition photos : filesystem :=
  list_to_map
    [("photos", Dir true);
     ("photos/photoA.jpg", File (bytes "XXXXXXXXXX"));
     ("photos/photoA_copy.jpg", File (bytes "XXXXXXXXXX"));
     ("photos/photoB.jpg", File (bytes "YYYYYYYYYY"))].

Definition photos_bucket : gset string :=
  {["photos/photoA.jpg"; "photos/photoA_copy.jpg"; "photos/photoB.jpg"]}.

Definition photos_inventory : gmap nat (gset string) :=
  {[10 := photos_bucket]}.

Definition photos_copies : gset string :=
  {["photos/photoA.jpg"; "photos/photoA_copy.jpg"]}.


(** The name of a file is what follows the last slash of its path. *)
Definition filename_length (p : string) : nat :=
  String.length (os_path_basename p).

(** The relocation target already holding a file named like a candidate. *)
Definition photos_with_collision : filesystem :=
  <["dups" := Dir true]>
    (<["dups/photoA.jpg" := File (bytes "ZZZ")]> photos).

(** * Properties *)

(** ** Outcomes and loops *)

Lemma bind_Ret {A B} (m : outcome A) (k : A -> outcome B) (y : B) :
  bind m k = Ret y <-> exists x, m = Ret x /\ k x = Ret y.
Proof.
  destruct m as [a|e|]; simpl; split.
  - intros Hk. exists a. auto.
  - intros [x [[= ->] Hk]]. assumption.
  - discriminate.
  - intros [x [? _]]. discriminate.
  - discriminate.
  - intros [x [? _]]. discriminate.
Qed.

Lemma bind_OutOfFuel {A B} (m : outcome A) (k : A -> outcome B) :
  bind m k = OutOfFuel <->
  m = OutOfFuel \/ exists x, m = Ret x /\ k x = OutOfFuel.
Proof.
  destruct m as [a|e'|]; simpl; split; intros Hm;
    try (destruct Hm as [Hm|[x [Hm Hk]]]);
    try discriminate; try reflexivity; try assumption.
  - right. exists a. split; [reflexivity | assumption].
  - injection Hm as ->. assumption.
  - left. reflexivity.
Qed.

Lemma bind_Raise {A B} (m : outcome A) (k : A -> outcome B) (e : exn) :
  bind m k = Raise e <->
  m = Raise e \/ exists x, m = Ret x /\ k x = Raise e.
Proof.
  destruct m as [a|e'|]; simpl; split; intros Hm;
    try (destruct Hm as [Hm|[x [Hm Hk]]]);
    try discriminate; try reflexivity; try assumption.
  - right. exists a. split; [reflexivity | assumption].
  - injection Hm as ->. assumption.
  - left. injection Hm as ->. reflexivity.
  - injection Hm as ->. reflexivity.
Qed.

Lemma for_each_app {A S} (body : S -> A -> outcome S) (xs ys : list A) s :
  for_each body (xs ++ ys)%list s =
  bind (for_each body xs s) (for_each body ys).
Proof.
  revert s. induction xs as [|x xs IH]; intros s; simpl; [reflexivity|].
  destruct (body s x); simpl; auto.
Qed.

(** A loop invariant that every turn preserves holds of the result. *)
Lemma for_each_invariant {A S} (body : S -> A -> outcome S)
    (I : list A -> S -> Prop) (xs : list A) (s r : S) :
  I [] s ->
  (forall done x s s', x ∈ xs -> I done s -> body s x = Ret s' ->
                       I (done ++ [x])%list s') ->
  for_each body xs s = Ret r -> I xs r.
Proof.
  intros Hinit Hstep.
  enough (Hgen : forall done todo s, (forall x, x ∈ todo -> x ∈ xs) ->
            I done s -> for_each body todo s = Ret r ->
            I (done ++ todo)%list r).
  { intros Hr. apply (Hgen [] xs s); auto. }
  intros done todo. revert done.
  induction todo as [|x todo IH]; intros done s0 Hsub Hdone Hrun; simpl in *.
  - injection Hrun as <-. rewrite app_nil_r. assumption.
  - apply bind_Ret in Hrun as [s' [Hx Hrest]].
    replace (done ++ x :: todo)%list with ((done ++ [x]) ++ todo)%list
      by (rewrite <- app_assoc; reflexivity).
    apply (IH _ s').
    + intros y Hy. apply Hsub. right. assumption.
    + apply (Hstep done x s0); auto. apply Hsub. left.
    + assumption.
Qed.

(** A loop none of whose turns raises or is cut short returns. *)
Lemma for_each_total {A S} (body : S -> A -> outcome S) (xs : list A) s :
  (forall x s, x ∈ xs -> exists s', body s x = Ret s') ->
  exists r, for_each body xs s = Ret r.
Proof.
  revert s. induction xs as [|x xs IH]; intros s Hbody; simpl; eauto.
  destruct (Hbody x s) as [s' ->]; [left|]. simpl.
  apply IH. intros y s0 Hy. apply Hbody. right. assumption.
Qed.

Lemma for_each_not_OutOfFuel {A S} (body : S -> A -> outcome S) xs s :
  (forall x s, x ∈ xs -> body s x <> OutOfFuel) ->
  for_each body xs s <> OutOfFuel.
Proof.
  revert s. induction xs as [|x xs IH]; intros s Hbody; simpl; [discriminate|].
  intros Hrun. apply bind_OutOfFuel in Hrun as [Hx|[s' [_ Hrest]]].
  - apply (Hbody x s); [left | assumption].
  - revert Hrest. apply IH. intros y s0 Hy. apply Hbody. right. assumption.
Qed.

Lemma for_each_ext {A S} (body body' : S -> A -> outcome S) xs s :
  (forall x s, x ∈ xs -> body s x = body' s x) ->
  for_each body xs s = for_each body' xs s.
Proof.
  revert s. induction xs as [|x xs IH]; intros s Hbody; simpl; [reflexivity|].
  rewrite Hbody by left. destruct (body' s x); simpl; auto.
  apply IH. intros y s0 Hy. apply Hbody. right. assumption.
Qed.

(** ** The duplicate grouper *)

Lemma filecmp_cmp_not_OutOfFuel fs a c : filecmp_cmp fs a c <> OutOfFuel.
Proof.
  unfold filecmp_cmp.
  destruct (fs !! a) as [[d1|r1]|]; [| |discriminate];
    (destruct (fs !! c) as [[d2|r2]|]; [| |discriminate]);
    try discriminate.
  destruct (negb _); discriminate.
Qed.

Lemma filecmp_cmp_total fs a c :
  is_Some (fs !! a) -> is_Some (fs !! c) -> exists r, filecmp_cmp fs a c = Ret r.
Proof.
  intros [n1 H1] [n2 H2]. unfold filecmp_cmp. rewrite H1, H2.
  destruct n1, n2; eauto. destruct (negb _); eauto.
Qed.

(** Two paths compare equal exactly when both are regular files with the
    same bytes. *)
Lemma filecmp_cmp_true fs a c :
  filecmp_cmp fs a c = Ret true <->
  exists data, fs !! a = Some (File data) /\ fs !! c = Some (File data).
Proof.
  unfold filecmp_cmp. split.
  - destruct (fs !! a) as [[d1|r1]|]; [| |discriminate];
      (destruct (fs !! c) as [[d2|r2]|]; [| |discriminate]);
      try discriminate.
    destruct (negb _); [discriminate|].
    intros [= Heq]. apply bool_decide_eq_true in Heq as ->. eauto.
  - intros [data [-> ->]]. rewrite Nat.eqb_refl. simpl.
    rewrite bool_decide_eq_true_2; reflexivity.
Qed.

Section grouping_properties.
Context `{SetPop} (fs : filesystem).

Lemma collect_spec seed (cands : list string) (acc g : gset string) :
  for_each (collect fs seed) cands acc = Ret g ->
  forall q, q ∈ g <->
            q ∈ acc \/ (q ∈ cands /\ filecmp_cmp fs seed q = Ret true).
Proof.
  revert acc. induction cands as [|c cands IH]; intros acc Hrun q; simpl in *.
  - injection Hrun as <-. split; [auto|]. intros [?|[Hq _]]; [assumption|].
    inversion Hq.
  - apply bind_Ret in Hrun as [acc' [Hc Hrest]].
    rewrite (IH _ Hrest q). unfold collect in Hc.
    apply bind_Ret in Hc as [same [Hcmp Hacc']].
    rewrite elem_of_cons.
    destruct same; injection Hacc' as <-.
    + rewrite elem_of_union, elem_of_singleton. split.
      * intros [[?| ->]|[? ?]]; auto.
      * intros [?|[[->|?] ?]]; auto.
    + split.
      * intros [?|[? ?]]; auto.
      * intros [?|[[->|?] Hq]]; auto. rewrite Hcmp in Hq. discriminate.
Qed.

Lemma group_equal_files_empty : group_equal_files fs ∅ = Ret ∅.
Proof. reflexivity. Qed.

Lemma size_leb_0_false (s : gset string) :
  s <> ∅ -> Nat.leb (size s) 0 = false.
Proof.
  intros Hs. apply Nat.leb_gt.
  destruct (size s) eqn:E; [|lia].
  apply size_empty_iff in E. apply leibniz_equiv in E. contradiction.
Qed.

(** The group of a non-empty set: its seed and the members that compare
    equal to the seed. *)
Lemma group_equal_files_spec (s g : gset string) :
  s <> ∅ -> group_equal_files fs s = Ret g ->
  forall q, q ∈ g <->
            q = set_pop s \/
            (q ∈ s /\ q <> set_pop s /\
             filecmp_cmp fs (set_pop s) q = Ret true).
Proof.
  intros Hs Hrun q. unfold group_equal_files in Hrun.
  rewrite (size_leb_0_false s Hs) in Hrun.
  rewrite (collect_spec _ _ _ _ Hrun q).
  rewrite elem_of_singleton, elem_of_elements, elem_of_difference,
    elem_of_singleton.
  tauto.
Qed.

Lemma group_equal_files_seed (s g : gset string) :
  s <> ∅ -> group_equal_files fs s = Ret g -> set_pop s ∈ g.
Proof.
  intros Hs Hrun. apply (group_equal_files_spec s g Hs Hrun). left.
  reflexivity.
Qed.

Lemma group_equal_files_subseteq (s g : gset string) :
  group_equal_files fs s = Ret g -> g ⊆ s.
Proof.
  destruct (decide (s = ∅)) as [->|Hs].
  - intros [= <-]. reflexivity.
  - intros Hrun q Hq.
    apply (group_equal_files_spec s g Hs Hrun) in Hq as [-> |[? _]];
      [apply set_pop_elem|]; assumption.
Qed.

Lemma group_equal_files_not_OutOfFuel (s : gset string) :
  group_equal_files fs s <> OutOfFuel.
Proof.
  unfold group_equal_files. destruct (Nat.leb _ _); [discriminate|].
  apply for_each_not_OutOfFuel. intros c acc _ Hc.
  apply bind_OutOfFuel in Hc as [Hc|[b [_ Hc]]].
  - revert Hc. apply filecmp_cmp_not_OutOfFuel.
  - destruct b; discriminate.
Qed.

Lemma group_equal_files_total (s : gset string) :
  (forall p, p ∈ s -> is_Some (fs !! p)) ->
  exists g, group_equal_files fs s = Ret g.
Proof.
  intros Hall. unfold group_equal_files.
  destruct (Nat.leb _ _) eqn:E; [eauto|].
  assert (Hs : s <> ∅).
  { intros ->. rewrite size_empty in E. discriminate. }
  apply for_each_total. intros c acc Hc.
  apply elem_of_elements, elem_of_difference in Hc as [Hc _].
  destruct (filecmp_cmp_total fs (set_pop s) c) as [b ->]; auto.
  - apply Hall, set_pop_elem, Hs.
  - simpl. destruct b; eauto.
Qed.
End grouping_properties.

Section partition_properties.
Context `{SetPop} (fs : filesystem).

Lemma size_difference_group (s g : gset string) :
  s <> ∅ -> group_equal_files fs s = Ret g -> size (s ∖ g) < size s.
Proof.
  intros Hs Hrun. apply subset_size. split; [set_solver|].
  intros Hsub.
  pose proof (group_equal_files_seed fs s g Hs Hrun) as Hseed.
  pose proof (set_pop_elem s Hs) as Hin.
  apply Hsub in Hin. set_solver.
Qed.

(** The groups emitted for a set are non-empty, pairwise disjoint and
    cover it. *)
Lemma group_photo_set_loop_partition fuel (s : gset string) gs :
  group_photo_set_loop fuel fs s = Ret gs ->
  ⋃ gs = s /\ pairwise_disjoint gs /\ Forall (fun g => g <> ∅) gs.
Proof.
  revert s gs. induction fuel as [|fuel IH]; intros s gs; simpl;
    destruct (decide (s = ∅)) as [->|Hs]; try discriminate.
  - intros [= <-]. simpl. auto.
  - intros [= <-]. simpl. auto.
  - intros Hrun.
    apply bind_Ret in Hrun as [g [Hg Hrun]].
    apply bind_Ret in Hrun as [rest [Hrest [= <-]]].
    destruct (IH _ _ Hrest) as (Hunion & Hdisj & Hne).
    pose proof (group_equal_files_subseteq fs s g Hg) as Hsub.
    pose proof (group_equal_files_seed fs s g Hs Hg) as Hseed.
    repeat split.
    + simpl. rewrite Hunion. apply set_eq. intros q.
      rewrite elem_of_union, elem_of_difference.
      destruct (decide (q ∈ g)); set_solver.
    + rewrite Hunion. set_solver.
    + assumption.
    + constructor; [|assumption]. set_solver.
Qed.

Lemma group_photo_set_loop_not_OutOfFuel fuel (s : gset string) :
  size s <= fuel -> group_photo_set_loop fuel fs s <> OutOfFuel.
Proof.
  revert s. induction fuel as [|fuel IH]; intros s Hfuel; simpl;
    destruct (decide (s = ∅)) as [->|Hs]; try discriminate.
  - exfalso. apply Hs. apply leibniz_equiv, size_empty_iff. lia.
  - intros Hrun. apply bind_OutOfFuel in Hrun as [Hg|[g [Hg Hrun]]].
    + revert Hg. apply group_equal_files_not_OutOfFuel.
    + apply bind_OutOfFuel in Hrun as [Hrest|[rest [_ ?]]];
        [|discriminate].
      revert Hrest. apply IH.
      pose proof (size_difference_group s g Hs Hg). lia.
Qed.

Lemma group_photo_set_loop_total fuel (s : gset string) :
  size s <= fuel ->
  (forall p, p ∈ s -> is_Some (fs !! p)) ->
  exists gs, group_photo_set_loop fuel fs s = Ret gs.
Proof.
  revert s. induction fuel as [|fuel IH]; intros s Hfuel Hall; simpl;
    destruct (decide (s = ∅)) as [->|Hs]; eauto.
  - exfalso. apply Hs. apply leibniz_equiv, size_empty_iff. lia.
  - destruct (group_equal_files_total fs s Hall) as [g Hg].
    rewrite Hg. simpl.
    destruct (IH (s ∖ g)) as [rest ->]; simpl; eauto.
    + pose proof (size_difference_group s g Hs Hg). lia.
    + intros p Hp. apply Hall. set_solver.
Qed.

(** The loop over a bucket always comes to an end. *)
Lemma group_photo_set_total (s : gset string) :
  group_photo_set fs s <> OutOfFuel.
Proof. apply group_photo_set_loop_not_OutOfFuel. reflexivity. Qed.

(** The result of the loop over the buckets, key by key. *)
Lemma group_buckets_lookup (items : list (nat * gset string))
    (acc r : gmap nat (list (gset string))) :
  NoDup items.*1 ->
  for_each
    (fun identical_photos_map '(k, group_photos) =>
       let* groups := group_photo_set fs group_photos in
       Ret (<[k := groups]> identical_photos_map))
    items acc = Ret r ->
  (forall k b, (k, b) ∈ items ->
               exists gs, group_photo_set fs b = Ret gs /\ r !! k = Some gs)
  /\ (forall k, k ∉ items.*1 -> r !! k = acc !! k).
Proof.
  revert acc. induction items as [|[k0 b0] items IH]; intros acc Hnd Hrun;
    simpl in *.
  - injection Hrun as <-. split; [|auto]. intros k b Hin. inversion Hin.
  - apply NoDup_cons in Hnd as [Hk0 Hnd].
    apply bind_Ret in Hrun as [acc' [Hstep Hrun]].
    apply bind_Ret in Hstep as [gs0 [Hgs0 [= <-]]].
    destruct (IH _ Hnd Hrun) as [Hin Hout]. split.
    + intros k b [[= -> ->]|Hkb]%elem_of_cons; [|auto].
      exists gs0. split; [assumption|].
      rewrite (Hout k0 Hk0). apply lookup_insert_eq.
    + intros k Hk. apply not_elem_of_cons in Hk as [Hne Hk].
      rewrite (Hout k Hk). apply lookup_insert_ne. congruence.
Qed.

Lemma group_all_identical_photos_lookup
    (m : gmap nat (gset string)) (r : gmap nat (list (gset string))) :
  group_all_identical_photos fs m = Ret r ->
  forall k, match m !! k with
            | Some b => exists gs, group_photo_set fs b = Ret gs
                                   /\ r !! k = Some gs
            | None => r !! k = None
            end.
Proof.
  intros Hrun k. unfold group_all_identical_photos in Hrun.
  apply group_buckets_lookup in Hrun as [Hin Hout];
    [|apply NoDup_fst_map_to_list].
  destruct (m !! k) as [b|] eqn:Hk.
  - apply Hin. apply elem_of_map_to_list. assumption.
  - rewrite Hout; [apply lookup_empty|].
    intros ((k' & b) & Hfst & Hkb)%list_elem_of_fmap. simpl in Hfst.
    subst k'. apply elem_of_map_to_list in Hkb. congruence.
Qed.

Lemma group_all_identical_photos_not_OutOfFuel
    (m : gmap nat (gset string)) :
  group_all_identical_photos fs m <> OutOfFuel.
Proof.
  apply for_each_not_OutOfFuel. intros [k b] acc _ Hstep.
  apply bind_OutOfFuel in Hstep as [Hb|[gs [_ ?]]]; [|discriminate].
  revert Hb. apply group_photo_set_total.
Qed.

Lemma group_all_identical_photos_total (m : gmap nat (gset string)) :
  (forall k b p, m !! k = Some b -> p ∈ b -> is_Some (fs !! p)) ->
  exists r, group_all_identical_photos fs m = Ret r.
Proof.
  intros Hall. apply for_each_total. intros [k b] acc Hkb.
  apply elem_of_map_to_list in Hkb.
  destruct (group_photo_set_loop_total (size b) b) as [gs Hgs];
    [reflexivity | intros p; exact (Hall k b p Hkb) |].
  unfold group_photo_set. rewrite Hgs. simpl. eauto.
Qed.
End partition_properties.

(** Members of a list of pairwise disjoint sets at different positions
    share no element. *)
Lemma disjoint_list_lookup (gs : list (gset string)) i j gi gj :
  pairwise_disjoint gs -> i <> j -> gs !! i = Some gi -> gs !! j = Some gj ->
  gi ## gj.
Proof.
  revert i j. induction gs as [|g gs IH]; intros i j Hd Hij Hi Hj.
  - rewrite lookup_nil in Hi. discriminate.
  - destruct Hd as [Hg Hd].
    destruct i as [|i], j as [|j]; simpl in *; try congruence.
    + injection Hi as ->. apply list_elem_of_lookup_2 in Hj.
      intros q Hq1 Hq2. apply (Hg q Hq1). apply elem_of_union_list. eauto.
    + injection Hj as ->. apply list_elem_of_lookup_2 in Hi.
      intros q Hq1 Hq2. apply (Hg q Hq2). apply elem_of_union_list. eauto.
    + apply (IH i j); auto.
Qed.

(** C3: for every size bucket the groups emitted for it are pairwise
    disjoint and their union is the bucket: no path appears in two groups
    and none is dropped.  The grouping stage never runs forever, and it
    returns whenever every listed file is still there. *)
Theorem C3_groups_partition_each_bucket `{SetPop} (fs : filesystem)
    (m : gmap nat (gset string)) :
  group_all_identical_photos fs m <> OutOfFuel /\
  ((forall k b p, m !! k = Some b -> p ∈ b -> is_Some (fs !! p)) ->
   exists r, group_all_identical_photos fs m = Ret r) /\
  forall r, group_all_identical_photos fs m = Ret r ->
    forall k bucket, m !! k = Some bucket ->
      exists groups,
        r !! k = Some groups /\
        ⋃ groups = bucket /\
        (forall p, p ∈ bucket -> exists g, g ∈ groups /\ p ∈ g) /\
        (forall i j gi gj, i <> j -> groups !! i = Some gi ->
                           groups !! j = Some gj -> gi ## gj).
Proof.
  split; [apply group_all_identical_photos_not_OutOfFuel|].
  split; [apply group_all_identical_photos_total|].
  intros r Hrun k bucket Hk.
  pose proof (group_all_identical_photos_lookup fs m r Hrun k) as Hlook.
  rewrite Hk in Hlook. destruct Hlook as [groups [Hgroups Hr]].
  apply group_photo_set_loop_partition in Hgroups as (Hunion & Hdisj & _).
  exists groups. repeat split; try assumption.
  - intros p Hp. rewrite <- Hunion in Hp.
    apply elem_of_union_list in Hp as [g [? ?]]. eauto.
  - intros i j gi gj. apply disjoint_list_lookup. assumption.
Qed.

(** ** The inventory builder *)

Lemma string_length_app (a c : string) :
  String.length (a ++ c) = String.length a + String.length c.
Proof. induction a as [|x a IH]; simpl; [reflexivity | rewrite IH; reflexivity]. Qed.

Lemma has_slash_startswith (n : string) :
  has_slash n = false -> startswith n "/" = false.
Proof.
  destruct n as [|c n]; [reflexivity|].
  unfold has_slash. simpl. unfold is_slash.
  destruct (Ascii.eqb c "/"); [discriminate | reflexivity].
Qed.

Lemma os_path_join_name (top n : string) :
  has_slash n = false ->
  os_path_join top n = (top ++ n) \/ os_path_join top n = (top ++ "/" ++ n).
Proof.
  intros Hn. unfold os_path_join. rewrite (has_slash_startswith n Hn).
  destruct (_ || _); auto.
Qed.

Lemma os_path_join_longer (top n : string) :
  n <> "" -> has_slash n = false ->
  String.length top < String.length (os_path_join top n).
Proof.
  intros Hne Hn.
  assert (0 < String.length n) by (destruct n; [congruence | simpl; lia]).
  destruct (os_path_join_name top n Hn) as [-> | ->];
    rewrite !string_length_app; lia.
Qed.

Lemma child_name_Some (d p n : string) :
  child_name d p = Some n ->
  n <> "" /\ has_slash n = false /\ os_path_join d n = p.
Proof.
  unfold child_name.
  destruct (negb (String.eqb _ "")) eqn:E1; [|discriminate].
  destruct (negb (has_slash _)) eqn:E2; [|discriminate].
  destruct (String.eqb (os_path_join _ _) p) eqn:E3; [|discriminate].
  simpl. intros [= <-].
  apply negb_true_iff in E1, E2. apply String.eqb_neq in E1.
  apply String.eqb_eq in E3. auto.
Qed.

Lemma os_scandir_Ret fs top dirs nondirs :
  os_scandir fs top = Ret (dirs, nondirs) ->
  fs !! top = Some (Dir true) /\
  (forall d, d ∈ dirs ->
     d <> "" /\ has_slash d = false /\
     exists r, fs !! os_path_join top d = Some (Dir r)) /\
  (forall f, f ∈ nondirs ->
     f <> "" /\ has_slash f = false /\
     exists data, fs !! os_path_join top f = Some (File data)).
Proof.
  unfold os_scandir. destruct (fs !! top) as [[data|[|]]|] eqn:Htop;
    try discriminate.
  intros [= <- <-]. split; [reflexivity|]. split.
  - intros d ([p nd] & Hin & Hname)%list_elem_of_omap.
    apply elem_of_map_to_list in Hin. destruct nd as [|r]; [discriminate|].
    apply child_name_Some in Hname as (? & ? & ->). eauto.
  - intros f ([p nd] & Hin & Hname)%list_elem_of_omap.
    apply elem_of_map_to_list in Hin. destruct nd as [data|]; [|discriminate].
    apply child_name_Some in Hname as (? & ? & ->). eauto.
Qed.

Lemma os_scandir_not_OutOfFuel fs top : os_scandir fs top <> OutOfFuel.
Proof.
  unfold os_scandir. destruct (fs !! top) as [[data|[|]]|]; discriminate.
Qed.

Lemma walk_each_total {T} (walk : string -> outcome (list T)) tops :
  (forall d, d ∈ tops -> exists r, walk d = Ret r) ->
  exists r, walk_each walk tops = Ret r.
Proof.
  induction tops as [|d tops IH]; intros Hall; simpl; eauto.
  destruct (Hall d) as [here ->]; [left|]. simpl.
  destruct IH as [rest ->]; simpl; eauto.
  intros d' Hd'. apply Hall. right. assumption.
Qed.

Lemma walk_each_elem {T} (walk : string -> outcome (list T)) tops r x :
  walk_each walk tops = Ret r -> x ∈ r ->
  exists d here, d ∈ tops /\ walk d = Ret here /\ x ∈ here.
Proof.
  revert r. induction tops as [|d tops IH]; intros r Hrun Hx; simpl in *.
  - injection Hrun as <-. inversion Hx.
  - apply bind_Ret in Hrun as [here [Hhere Hrun]].
    apply bind_Ret in Hrun as [rest [Hrest [= <-]]].
    apply elem_of_app in Hx as [Hx|Hx].
    + exists d, here. split; [left|]; auto.
    + destruct (IH rest Hrest Hx) as (d' & here' & ? & ? & ?).
      exists d', here'. split; [right|]; auto.
Qed.

Lemma longer_paths_descend (fs : filesystem) (top p : string) :
  is_Some (fs !! p) -> String.length top < String.length p ->
  size (longer_paths fs p) < size (longer_paths fs top).
Proof.
  intros Hp Hlen. apply subset_size. split.
  - intros q [Hq Hdom]%elem_of_filter. apply elem_of_filter. split; [lia|auto].
  - intros Hsub. assert (Hin : p ∈ longer_paths fs top).
    { apply elem_of_filter. split; [assumption | apply elem_of_dom; assumption]. }
    apply Hsub in Hin. apply elem_of_filter in Hin as [Hin _]. lia.
Qed.

Lemma os_walk_from_total fuel (fs : filesystem) (top : string) :
  size (longer_paths fs top) < fuel ->
  exists ts, os_walk_from fuel fs top = Ret ts.
Proof.
  revert top. induction fuel as [|fuel IH]; intros top Hfuel; [lia|].
  simpl. destruct (os_scandir fs top) as [[dirs nondirs]|e|] eqn:Hscan; eauto.
  apply os_scandir_Ret in Hscan as (_ & Hdirs & _).
  destruct (walk_each_total (os_walk_from fuel fs)
              (map (os_path_join top) dirs)) as [below ->]; simpl; eauto.
  intros p (d & -> & Hd)%list_elem_of_fmap.
  destruct (Hdirs d Hd) as (Hne & Hslash & r & Hp).
  apply IH.
  pose proof (longer_paths_descend fs top (os_path_join top d)
                (mk_is_Some _ _ Hp) (os_path_join_longer top d Hne Hslash)).
  lia.
Qed.

(** The walk always comes to an end. *)
Lemma os_walk_total (fs : filesystem) (top : string) :
  exists ts, os_walk fs top = Ret ts.
Proof.
  apply os_walk_from_total.
  assert (size (longer_paths fs top) <= size (dom fs)).
  { apply subseteq_size. intros q [_ Hq]%elem_of_filter. assumption. }
  rewrite size_dom in *. lia.
Qed.

(** Every entry the walk reports as a file is a file of the file system,
    under the path the program builds for it. *)
Lemma os_walk_from_files fuel (fs : filesystem) (top : string) ts :
  os_walk_from fuel fs top = Ret ts ->
  forall root ds fl f, (root, ds, fl) ∈ ts -> f ∈ fl ->
    f <> "" /\ has_slash f = false /\
    exists data, fs !! os_path_join root f = Some (File data).
Proof.
  revert top ts. induction fuel as [|fuel IH]; intros top ts; [discriminate|].
  simpl. destruct (os_scandir fs top) as [[dirs nondirs]|e|] eqn:Hscan.
  - intros Hrun root ds fl f Hin Hf.
    apply bind_Ret in Hrun as [below [Hbelow [= <-]]].
    apply elem_of_cons in Hin as [[= -> -> ->]|Hin].
    + apply os_scandir_Ret in Hscan as (_ & _ & Hfiles). auto.
    + destruct (walk_each_elem _ _ _ _ Hbelow Hin) as (d & here & _ & Hd & Hx).
      exact (IH _ _ Hd root ds fl f Hx Hf).
  - intros [= <-] root ds fl f Hin. inversion Hin.
  - intros [= <-] root ds fl f Hin. inversion Hin.
Qed.

Lemma for_each_map {A B S} (body : S -> B -> outcome S) (f : A -> B) xs s :
  for_each (fun s x => body s (f x)) xs s = for_each body (map f xs) s.
Proof.
  revert s. induction xs as [|x xs IH]; intros s; simpl; [reflexivity|].
  destruct (body s (f x)); simpl; auto.
Qed.

Lemma define_files_map_unfold (fs : filesystem) (directory : string) :
  define_files_map fs directory =
  let* ts := os_walk fs directory in
  for_each (inventory_step fs) (walked_entries ts) ∅.
Proof.
  unfold define_files_map. destruct (os_walk fs directory) as [ts|e|]; simpl;
    try reflexivity.
  generalize (∅ : gmap nat (gset string)).
  induction ts as [|[[root dirs] files] ts IH]; intros acc; simpl;
    [reflexivity|].
  rewrite for_each_app.
  rewrite (for_each_map (inventory_step fs) (os_path_join root)).
  destruct (for_each _ (map _ files) acc); simpl; auto.
Qed.

Lemma in_bucket_empty k p : ~ in_bucket ∅ k p.
Proof. intros [s [Hs _]]. rewrite lookup_empty in Hs. discriminate. Qed.

Lemma add_photo_spec fs (bn m : gmap nat (gset string)) (p : string) :
  add_photo_into_map_by_filesize fs bn (EntryStr p) = Ret m ->
  exists k, stat_size fs p = Ret k /\
    forall k' q, in_bucket m k' q <-> in_bucket bn k' q \/ (k' = k /\ q = p).
Proof.
  unfold add_photo_into_map_by_filesize. intros Hrun.
  apply bind_Ret in Hrun as [[k path] [Hk Hrun]].
  apply bind_Ret in Hk as [k0 [Hk [= -> ->]]].
  exists k. split; [assumption|].
  intros k' q. unfold in_bucket.
  destruct (bn !! k) as [paths|] eqn:Hbn; injection Hrun as <-;
    destruct (decide (k' = k)) as [->|Hne].
  - rewrite lookup_insert_eq. split.
    + intros [s [[= <-] Hq]]. apply elem_of_union in Hq as [Hq|Hq].
      * left. eauto.
      * right. apply elem_of_singleton in Hq. auto.
    + intros [[s [Hs Hq]]|[_ ->]]; eexists; (split; [reflexivity|]).
      * rewrite Hbn in Hs. injection Hs as ->. set_solver.
      * set_solver.
  - rewrite lookup_insert_ne by congruence. split; [auto|].
    intros [?|[? _]]; [assumption | contradiction].
  - rewrite lookup_insert_eq. split.
    + intros [s [[= <-] Hq]]. right. apply elem_of_singleton in Hq. auto.
    + intros [[s [Hs Hq]]|[_ ->]]; [congruence|].
      eexists. split; [reflexivity | set_solver].
  - rewrite lookup_insert_ne by congruence. split; [auto|].
    intros [?|[? _]]; [assumption | contradiction].
Qed.

Lemma inventory_loop_spec fs (l : list string)
    (acc m : gmap nat (gset string)) :
  for_each (inventory_step fs) l acc = Ret m ->
  forall k q, in_bucket m k q <->
    in_bucket acc k q \/
    (q ∈ l /\ photo_extension q = true /\ stat_size fs q = Ret k).
Proof.
  revert acc. induction l as [|e l IH]; intros acc Hrun k q; simpl in *.
  - injection Hrun as <-. split; [auto|]. intros [?|[Hq _]]; [assumption|].
    inversion Hq.
  - apply bind_Ret in Hrun as [acc' [Hstep Hrun]].
    rewrite (IH _ Hrun k q). rewrite elem_of_cons. unfold inventory_step in Hstep.
    destruct (photo_extension e) eqn:Hext.
    + apply add_photo_spec in Hstep as [ke [Hke Hacc']].
      rewrite Hacc'. split.
      * intros [[?|[-> ->]]|(? & ? & ?)]; auto.
      * intros [?|([->|?] & ? & Hq)]; auto.
        left. right. split; congruence.
    + injection Hstep as <-. split.
      * intros [?|(? & ? & ?)]; auto.
      * intros [?|([->|?] & Hq & ?)]; auto. congruence.
Qed.

Lemma inventory_loop_total fs (l : list string) (acc : gmap nat (gset string)) :
  (forall e, e ∈ l -> is_Some (fs !! e)) ->
  exists m, for_each (inventory_step fs) l acc = Ret m.
Proof.
  intros Hall. apply for_each_total. intros e bn He.
  unfold inventory_step, add_photo_into_map_by_filesize, stat_size.
  destruct (photo_extension e); [|eauto].
  destruct (Hall e He) as [[data|r] ->]; simpl; destruct (bn !! _); eauto.
Qed.

Lemma walked_entries_files fs directory ts q :
  os_walk fs directory = Ret ts -> q ∈ walked_entries ts ->
  exists data, fs !! q = Some (File data).
Proof.
  intros Hwalk Hq. unfold walked_entries in Hq.
  apply list_elem_of_In, in_flat_map in Hq as [[[root dirs] files] [Hin Hq]].
  apply list_elem_of_In in Hin.
  apply list_elem_of_In, list_elem_of_fmap in Hq as [f [-> Hf]].
  destruct (os_walk_from_files _ _ _ _ Hwalk root dirs files f Hin Hf)
    as (_ & _ & Hdata).
  assumption.
Qed.

(** The inventory stage returns, and what it returns holds exactly the
    walked paths with a photo extension, each under the size of its
    file. *)
Lemma define_files_map_spec (fs : filesystem) (directory : string) :
  exists ts m,
    os_walk fs directory = Ret ts /\
    define_files_map fs directory = Ret m /\
    forall k q, in_bucket m k q <->
      q ∈ walked_entries ts /\ photo_extension q = true /\
      exists data, fs !! q = Some (File data) /\ length data = k.
Proof.
  destruct (os_walk_total fs directory) as [ts Hwalk].
  destruct (inventory_loop_total fs (walked_entries ts) ∅) as [m Hm].
  { intros e He. destruct (walked_entries_files fs directory ts e Hwalk He)
      as [data ->]. eauto. }
  exists ts, m. split; [assumption|]. split.
  - rewrite define_files_map_unfold, Hwalk. exact Hm.
  - intros k q. rewrite (inventory_loop_spec fs _ _ _ Hm k q). split.
    + intros [Hempty|(Hq & Hext & Hsize)]; [destruct (in_bucket_empty _ _ Hempty)|].
      destruct (walked_entries_files fs directory ts q Hwalk Hq) as [data Hdata].
      unfold stat_size in Hsize. rewrite Hdata in Hsize.
      injection Hsize as <-. eauto.
    + intros (Hq & Hext & data & Hdata & <-). right.
      unfold stat_size. rewrite Hdata. auto.
Qed.

(** ** Groups hold identical files *)

Section group_contents.
Context `{SetPop} (fs : filesystem).

(** Every emitted group is the group of some non-empty part of the
    bucket. *)
Lemma group_photo_set_loop_origin fuel (s : gset string) gs g :
  group_photo_set_loop fuel fs s = Ret gs -> g ∈ gs ->
  exists s', s' ⊆ s /\ s' <> ∅ /\ group_equal_files fs s' = Ret g.
Proof.
  revert s gs. induction fuel as [|fuel IH]; intros s gs; simpl;
    destruct (decide (s = ∅)) as [->|Hs]; try discriminate.
  - intros [= <-] Hg. inversion Hg.
  - intros [= <-] Hg. inversion Hg.
  - intros Hrun Hg.
    apply bind_Ret in Hrun as [g0 [Hg0 Hrun]].
    apply bind_Ret in Hrun as [rest [Hrest [= <-]]].
    apply elem_of_cons in Hg as [->|Hg].
    + exists s. auto.
    + destruct (IH _ _ Hrest Hg) as (s' & Hsub & Hne & Hs').
      exists s'. split; [set_solver | auto].
Qed.

(** All members of a group of regular files hold the bytes of the seed:
    comparing each one against the seed is enough. *)
Lemma group_equal_files_same_data (s g : gset string) (k : nat) :
  s <> ∅ ->
  (forall p, p ∈ s -> exists data, fs !! p = Some (File data)
                                   /\ length data = k) ->
  group_equal_files fs s = Ret g ->
  exists data, length data = k /\
               forall q, q ∈ g -> fs !! q = Some (File data).
Proof.
  intros Hs Hfiles Hrun.
  destruct (Hfiles (set_pop s) (set_pop_elem s Hs)) as (data & Hseed & Hlen).
  exists data. split; [assumption|]. intros q Hq.
  apply (group_equal_files_spec fs s g Hs Hrun) in Hq as [->|(_ & _ & Hcmp)];
    [assumption|].
  apply filecmp_cmp_true in Hcmp as (data' & Hseed' & Hq).
  congruence.
Qed.
End group_contents.

(** C4: for every directory, the inventory and the grouping stage return,
    and any two members of a returned group are regular files holding the
    same bytes, of the size the group is filed under. *)
Theorem C4_group_members_identical `{SetPop} (fs : filesystem)
    (directory : string) :
  exists m r,
    define_files_map fs directory = Ret m /\
    group_all_identical_photos fs m = Ret r /\
    forall k groups g a c,
      r !! k = Some groups -> g ∈ groups -> a ∈ g -> c ∈ g ->
      exists data,
        fs !! a = Some (File data) /\ fs !! c = Some (File data) /\
        length data = k.
Proof.
  destruct (define_files_map_spec fs directory) as (ts & m & Hwalk & Hm & Hin).
  assert (Hfiles : forall k b p, m !! k = Some b -> p ∈ b ->
            exists data, fs !! p = Some (File data) /\ length data = k).
  { intros k b p Hk Hp.
    destruct (proj1 (Hin k p)) as (_ & _ & data & ? & ?); [exists b; auto|].
    eauto. }
  destruct (group_all_identical_photos_total fs m) as [r Hr].
  { intros k b p Hk Hp. destruct (Hfiles k b p Hk Hp) as (data & -> & _). eauto. }
  exists m, r. split; [assumption|]. split; [assumption|].
  intros k groups g a c Hgroups Hg Ha Hc.
  pose proof (group_all_identical_photos_lookup fs m r Hr k) as Hlook.
  destruct (m !! k) as [bucket|] eqn:Hk; [|congruence].
  destruct Hlook as (gs & Hgs & Hrk).
  assert (gs = groups) as -> by congruence.
  destruct (group_photo_set_loop_origin fs _ _ _ g Hgs Hg)
    as (s' & Hsub & Hne & Hs').
  destruct (group_equal_files_same_data fs s' g k Hne) as (data & Hlen & Hdata);
    [|assumption|].
  { intros p Hp. apply (Hfiles k bucket); auto. }
  exists data. auto.
Qed.

(** ** The relocation plan *)

#[local] Instance string_ge_total : Total (flip String.le).
Proof. intros x y. unfold flip. destruct (total String.le x y); auto. Qed.

(** Sorted in reverse, a list ends in its least string. *)
Lemma sorted_reverse_last (xs : list string) :
  xs <> [] ->
  exists front keep,
    sorted xs true = (front ++ [keep])%list /\
    (front ++ [keep])%list ≡ₚ xs /\
    forall q, q ∈ xs -> String.le keep q.
Proof.
  intros Hne. unfold sorted.
  pose proof (merge_sort_Permutation (flip String.le) xs) as Hperm.
  pose proof (StronglySorted_merge_sort (flip String.le) xs) as Hsorted.
  destruct (merge_sort (flip String.le) xs) as [|x l] eqn:E.
  { apply Permutation_nil_l in Hperm. congruence. }
  destruct (@exists_last _ (x :: l)) as (front & keep & Hlast); [discriminate|].
  rewrite Hlast in *. exists front, keep.
  split; [reflexivity|]. split; [assumption|].
  intros q Hq. rewrite <- Hperm in Hq.
  apply elem_of_app in Hq as [Hq|Hq].
  - apply (StronglySorted_app_1_elem_of (flip String.le) front [keep] q keep);
      [assumption | assumption | left].
  - apply list_elem_of_singleton in Hq as ->. reflexivity.
Qed.

(** The files to move out of a group of two or more: all its members but
    one, the least path in the order of strings. *)
Lemma relocation_plan (g : gset string) :
  1 < size g ->
  exists cands keep,
    exclude_one_image_to_not_delete_it (sorted (elements g) true) = Ret cands /\
    keep ∈ g /\
    (forall q, q ∈ g -> String.le keep q) /\
    NoDup cands /\
    (forall q, q ∈ cands <-> q ∈ g /\ q <> keep) /\
    length cands = size g - 1.
Proof.
  intros Hsize.
  assert (Hne : elements g <> []).
  { intros E. apply elements_empty_inv in E. apply leibniz_equiv in E.
    subst g. rewrite size_empty in Hsize. lia. }
  destruct (sorted_reverse_last (elements g) Hne)
    as (front & keep & Hsorted & Hperm & Hmin).
  exists front, keep. rewrite Hsorted.
  assert (Hnd : NoDup (front ++ [keep])%list).
  { rewrite Hperm. apply NoDup_elements. }
  apply NoDup_app in Hnd as (Hfront & Hkeep & _).
  assert (Hmem : forall q, q ∈ g <-> q ∈ front \/ q = keep).
  { intros q. rewrite <- elem_of_elements, <- Hperm, elem_of_app,
      list_elem_of_singleton. tauto. }
  repeat split.
  - unfold exclude_one_image_to_not_delete_it.
    destruct (front ++ [keep])%list eqn:E.
    + destruct front; discriminate.
    + rewrite <- E, removelast_last. reflexivity.
  - apply Hmem. auto.
  - intros q Hq. apply Hmin, elem_of_elements, Hq.
  - assumption.
  - apply Hmem. auto.
  - intros ->. eapply Hkeep; [eassumption | left].
  - intros [[?|?]%Hmem ?]; [assumption | contradiction].
  - assert (Hlen : length (front ++ [keep])%list = size g).
    { rewrite Hperm. reflexivity. }
    rewrite length_app in Hlen. simpl in Hlen. lia.
Qed.

(** ** Updates of the file system *)

Lemma os_path_exists_true fs p : os_path_exists fs p = true <-> is_Some (fs !! p).
Proof. unfold os_path_exists. apply bool_decide_eq_true. Qed.

Lemma os_path_exists_false fs p : os_path_exists fs p = false <-> fs !! p = None.
Proof.
  unfold os_path_exists. rewrite bool_decide_eq_false. split.
  - intros Hno. destruct (fs !! p) eqn:E; [|reflexivity].
    exfalso. apply Hno. eauto.
  - intros -> [x ?]. discriminate.
Qed.

Lemma os_mkdir_Ret fs p fs' :
  os_mkdir fs p = Ret fs' -> fs !! p = None /\ fs' = <[p := Dir true]> fs.
Proof.
  unfold os_mkdir. destruct (String.eqb p ""); [discriminate|].
  destruct (os_path_exists fs p) eqn:E; [discriminate|].
  apply os_path_exists_false in E. intros Hrun.
  apply bind_Ret in Hrun as [_ [_ [= <-]]]. auto.
Qed.

Lemma check_parent_not_OutOfFuel fs p : check_parent fs p <> OutOfFuel.
Proof.
  unfold check_parent. destruct (_ || _); [discriminate|].
  destruct (fs !! _) as [[?|?]|]; discriminate.
Qed.

Lemma os_mkdir_not_OutOfFuel fs p : os_mkdir fs p <> OutOfFuel.
Proof.
  unfold os_mkdir. destruct (String.eqb p ""); [discriminate|].
  destruct (os_path_exists fs p); [discriminate|].
  intros [Hc|[? [_ ?]]]%bind_OutOfFuel; [|discriminate].
  revert Hc. apply check_parent_not_OutOfFuel.
Qed.

Lemma only_adds_directories_refl fs : only_adds_directories fs fs.
Proof. intros p. destruct (fs !! p); auto. Qed.

Lemma only_adds_directories_trans fs1 fs2 fs3 :
  only_adds_directories fs1 fs2 -> only_adds_directories fs2 fs3 ->
  only_adds_directories fs1 fs3.
Proof.
  intros H12 H23 p. specialize (H12 p). specialize (H23 p).
  destruct (fs1 !! p) as [nd|].
  - rewrite H12 in H23. assumption.
  - destruct H12 as [H12|H12]; rewrite H12 in H23; auto.
Qed.

Lemma os_mkdir_only_adds fs p fs' :
  os_mkdir fs p = Ret fs' -> only_adds_directories fs fs'.
Proof.
  intros [Hp ->]%os_mkdir_Ret q.
  destruct (decide (q = p)) as [->|Hne].
  - rewrite Hp, lookup_insert_eq. auto.
  - rewrite lookup_insert_ne by congruence. destruct (fs !! q); auto.
Qed.

Lemma os_makedirs_Ret fs name fs' :
  os_makedirs fs name = Ret fs' ->
  fs' !! name = Some (Dir true) /\ only_adds_directories fs fs'.
Proof.
  unfold os_makedirs. intros Hrun.
  apply bind_Ret in Hrun as [fs1 [Hanc Hleaf]].
  assert (H1 : only_adds_directories fs fs1).
  { revert Hanc.
    apply (for_each_invariant _ (fun _ fs1 => only_adds_directories fs fs1)).
    - apply only_adds_directories_refl.
    - intros _ d fsa fsb _ Ha Hstep.
      destruct (os_path_exists fsa d); [injection Hstep as <-; assumption|].
      apply os_mkdir_only_adds in Hstep.
      eapply only_adds_directories_trans; eassumption. }
  split.
  - apply os_mkdir_Ret in Hleaf as [_ ->]. apply lookup_insert_eq.
  - eapply only_adds_directories_trans; [eassumption|].
    eapply os_mkdir_only_adds; eassumption.
Qed.

Lemma os_makedirs_not_OutOfFuel fs name : os_makedirs fs name <> OutOfFuel.
Proof.
  unfold os_makedirs. intros [Hanc|[fs1 [_ Hleaf]]]%bind_OutOfFuel.
  - revert Hanc. apply for_each_not_OutOfFuel. intros d fsa _.
    destruct (os_path_exists fsa d); [discriminate|].
    apply os_mkdir_not_OutOfFuel.
  - revert Hleaf. apply os_mkdir_not_OutOfFuel.
Qed.



Lemma is_file_only_adds fs fs' p :
  only_adds_directories fs fs' -> is_file fs p -> is_file fs' p.
Proof.
  intros Hadd [data Hp]. specialize (Hadd p). rewrite Hp in Hadd.
  exists data. assumption.
Qed.

Lemma shutil_move_not_OutOfFuel fs src dst : shutil_move fs src dst <> OutOfFuel.
Proof.
  unfold shutil_move. destruct (fs !! src) as [nd|]; [|discriminate].
  destruct (_ && _); [discriminate|].
  intros [Hc|[? [_ Hrest]]]%bind_OutOfFuel.
  - destruct (os_path_isdir fs dst); [discriminate|].
    revert Hc. apply check_parent_not_OutOfFuel.
  - destruct nd; [discriminate|].
    destruct (is_under _ _); [discriminate|].
    destruct (os_path_exists _ _); discriminate.
Qed.

(** Moving a regular file removes it under its old path and gives some
    path its bytes; every other regular file stays a regular file. *)
Lemma shutil_move_file fs src dst fs' moved data :
  fs !! src = Some (File data) ->
  shutil_move fs src dst = Ret (fs', moved) ->
  fs' = <[moved := File data]> (delete src fs).
Proof.
  intros Hsrc. unfold shutil_move. rewrite Hsrc.
  destruct (_ && _); [discriminate|].
  intros Hrun. apply bind_Ret in Hrun as [_ [_ [= <- <-]]]. reflexivity.
Qed.

Lemma shutil_move_frame fs src dst fs' moved q :
  is_file fs src ->
  shutil_move fs src dst = Ret (fs', moved) ->
  q <> src -> is_file fs q -> is_file fs' q.
Proof.
  intros [data Hsrc] Hmove Hne [dq Hq].
  rewrite (shutil_move_file _ _ _ _ _ _ Hsrc Hmove).
  destruct (decide (q = moved)) as [->|Hne'].
  - exists data. apply lookup_insert_eq.
  - exists dq. rewrite lookup_insert_ne, lookup_delete_ne by congruence.
    assumption.
Qed.

(** ** The relocation executor *)

Lemma move_file_list_nil st destination n dry_run :
  move_file_list st [] destination n dry_run = (st, n).
Proof. reflexivity. Qed.

Lemma move_file_list_cons st f rest destination n dry_run :
  move_file_list st (f :: rest) destination n dry_run =
  let '(st', n') := move_one destination dry_run (st, n) f in
  move_file_list st' rest destination n' dry_run.
Proof.
  unfold move_file_list. cbn [fold_left].
  destruct (move_one destination dry_run (st, n) f). reflexivity.
Qed.

(** A path that is not there is passed over. *)
Lemma move_one_missing destination dry_run st n f :
  os_path_exists (disk st) f = false ->
  move_one destination dry_run (st, n) f = (st, n).
Proof. intros Hf. unfold move_one. rewrite Hf. reflexivity. Qed.

(** A path that is there is counted, whatever becomes of the move. *)
Lemma move_one_counts destination dry_run st n f :
  os_path_exists (disk st) f = true ->
  snd (move_one destination dry_run (st, n) f) = n + 1.
Proof.
  intros Hf. unfold move_one. rewrite Hf.
  destruct dry_run; [reflexivity|].
  destruct (shutil_move _ _ _) as [[fs' moved]|e|]; reflexivity.
Qed.

Lemma move_one_dry destination st n f :
  disk (fst (move_one destination true (st, n) f)) = disk st.
Proof.
  unfold move_one. destruct (os_path_exists _ _); reflexivity.
Qed.

Lemma is_file_exists fs p : is_file fs p -> os_path_exists fs p = true.
Proof. intros [data Hp]. apply os_path_exists_true. eauto. Qed.

(** Really moving a regular file leaves the other regular files in
    place. *)
Lemma move_one_frame destination dry_run st n f q :
  is_file (disk st) f -> q <> f -> is_file (disk st) q ->
  is_file (disk (fst (move_one destination dry_run (st, n) f))) q.
Proof.
  intros Hf Hne Hq. unfold move_one. rewrite (is_file_exists _ _ Hf).
  destruct dry_run; [exact Hq|].
  destruct (shutil_move _ _ _) as [[fs' moved]|e|] eqn:Hmove; simpl;
    try assumption.
  exact (shutil_move_frame _ _ _ _ _ q Hf Hmove Hne Hq).
Qed.

(** On a list of distinct regular files every one is counted, in either
    mode, and the regular files outside the list stay in place. *)
Lemma move_file_list_files st files destination n dry_run :
  NoDup files -> (forall f, f ∈ files -> is_file (disk st) f) ->
  snd (move_file_list st files destination n dry_run) = n + length files /\
  (forall q, q ∉ files -> is_file (disk st) q ->
     is_file (disk (fst (move_file_list st files destination n dry_run))) q).
Proof.
  revert st n. induction files as [|f files IH]; intros st n Hnd Hfiles.
  - simpl. split; [lia | auto].
  - rewrite move_file_list_cons.
    apply NoDup_cons in Hnd as [Hf Hnd].
    assert (Hisf : is_file (disk st) f) by (apply Hfiles; left).
    pose proof (move_one_counts destination dry_run st n f
                  (is_file_exists _ _ Hisf)) as Hcount.
    pose proof (fun q => move_one_frame destination dry_run st n f q Hisf)
      as Hframe.
    destruct (move_one destination dry_run (st, n) f) as [st' n'].
    simpl in Hcount, Hframe. subst n'.
    destruct (IH st' (n + 1) Hnd) as [IHcount IHframe].
    { intros f' Hf'. apply Hframe; [|apply Hfiles; right; assumption].
      intros ->. contradiction. }
    split.
    + rewrite IHcount. simpl. lia.
    + intros q Hq Hqf. apply not_elem_of_cons in Hq as [Hne Hq].
      apply IHframe; auto.
Qed.

Lemma move_file_list_dry st files destination n :
  disk (fst (move_file_list st files destination n true)) = disk st.
Proof.
  revert st n. induction files as [|f files IH]; intros st n; [reflexivity|].
  rewrite move_file_list_cons.
  pose proof (move_one_dry destination st n f) as Hdry.
  destruct (move_one destination true (st, n) f) as [st' n'].
  simpl in Hdry. rewrite IH. assumption.
Qed.

Lemma move_groups_unfold st d target_directory dry_run :
  move_groups st d target_directory dry_run =
  for_each (move_group target_directory dry_run) (all_groups d) (st, 0).
Proof.
  unfold move_groups, all_groups. generalize (st, 0).
  induction (map_to_list d) as [|[k v] items IH]; intros acc; simpl;
    [reflexivity|].
  rewrite for_each_app.
  destruct (for_each _ v acc); simpl; auto.
Qed.

(** One group of regular files: as many files counted as planned, in
    either mode; the regular files outside the group stay in place. *)
Lemma move_group_files target_directory dry_run st n (g : gset string) :
  (forall p, p ∈ g -> is_file (disk st) p) ->
  exists st', move_group target_directory dry_run (st, n) g
              = Ret (st', n + (size g - 1)) /\
    (forall q, q ∉ g -> is_file (disk st) q -> is_file (disk st') q) /\
    (dry_run = true -> disk st' = disk st).
Proof.
  intros Hfiles. unfold move_group.
  destruct (Nat.ltb 1 (size g)) eqn:Hsize.
  - apply Nat.ltb_lt in Hsize.
    destruct (relocation_plan g Hsize)
      as (cands & keep & -> & _ & _ & Hnd & Hmem & Hlen). simpl.
    destruct (move_file_list_files st cands target_directory n dry_run Hnd)
      as [Hcount Hframe].
    { intros f Hf. apply Hfiles, Hmem, Hf. }
    pose proof (move_file_list_dry st cands target_directory n) as Hdry.
    destruct (move_file_list st cands target_directory n dry_run)
      as [st' n'] eqn:Hrun.
    simpl in Hcount, Hframe. subst n'. rewrite Hlen.
    exists st'. split; [reflexivity|]. split.
    + intros q Hq. apply Hframe. intros Hin. apply Hq, Hmem, Hin.
    + intros ->. rewrite Hrun in Hdry. assumption.
  - apply Nat.ltb_ge in Hsize. exists st.
    replace (size g - 1) with 0 by lia. rewrite Nat.add_0_r. auto.
Qed.

(** A list of pairwise disjoint groups of regular files. *)
Lemma move_group_list_files target_directory dry_run gs st n :
  pairwise_disjoint gs ->
  (forall g p, g ∈ gs -> p ∈ g -> is_file (disk st) p) ->
  exists st', for_each (move_group target_directory dry_run) gs (st, n)
              = Ret (st', n + planned gs) /\
    (dry_run = true -> disk st' = disk st).
Proof.
  revert st n. induction gs as [|g gs IH]; intros st n Hdisj Hfiles.
  - exists st. simpl. unfold planned. simpl. rewrite Nat.add_0_r. auto.
  - destruct Hdisj as [Hg Hdisj]. cbn [for_each].
    destruct (move_group_files target_directory dry_run st n g)
      as (st1 & -> & Hframe & Hdry1).
    { intros p Hp. apply (Hfiles g); [left | assumption]. }
    cbn [bind].
    destruct (IH st1 (n + (size g - 1)) Hdisj) as (st' & -> & Hdry).
    { intros g' p Hg' Hp. apply Hframe.
      - intros Hin. apply (Hg p Hin). apply elem_of_union_list. eauto.
      - apply (Hfiles g'); [right|]; assumption. }
    exists st'. split.
    + unfold planned. simpl. f_equal. f_equal. lia.
    + intros Hd. rewrite (Hdry Hd). auto.
Qed.

Lemma pairwise_disjoint_app (l1 l2 : list (gset string)) :
  pairwise_disjoint l1 -> pairwise_disjoint l2 -> ⋃ l1 ## ⋃ l2 ->
  pairwise_disjoint (l1 ++ l2).
Proof.
  induction l1 as [|g l1 IH]; intros H1 H2 H12; simpl in *; [assumption|].
  destruct H1 as [Hg H1]. split.
  - rewrite union_list_app. set_solver.
  - apply IH; [assumption | assumption | set_solver].
Qed.

(** Groups filed under different keys, when the keys stand for disjoint
    sets that hold them, are pairwise disjoint all together. *)
Lemma flat_groups_disjoint (items : list (nat * list (gset string)))
    (bucket : nat -> gset string) :
  NoDup items.*1 ->
  (forall k gs, (k, gs) ∈ items -> pairwise_disjoint gs /\ ⋃ gs ⊆ bucket k) ->
  (forall k1 k2, k1 <> k2 -> bucket k1 ## bucket k2) ->
  pairwise_disjoint (flat_map snd items) /\
  forall p, p ∈ ⋃ (flat_map snd items) ->
            exists k, k ∈ items.*1 /\ p ∈ bucket k.
Proof.
  intros Hnd Hitems Hbuckets.
  induction items as [|[k gs] items IH]; simpl in *.
  - split; [exact I|]. intros p Hp. set_solver.
  - apply NoDup_cons in Hnd as [Hk Hnd].
    destruct IH as [IHd IHu]; [assumption | |].
    { intros k' gs' Hin. apply Hitems. right. assumption. }
    destruct (Hitems k gs) as [Hgs Hsub]; [left|].
    split.
    + apply pairwise_disjoint_app; [assumption | assumption |].
      intros p Hp1 Hp2. apply IHu in Hp2 as (k' & Hk' & Hp2).
      apply Hsub in Hp1.
      assert (Hne : k <> k') by (intros ->; contradiction).
      exact (Hbuckets k k' Hne p Hp1 Hp2).
    + intros p Hp. rewrite union_list_app in Hp.
      apply elem_of_union in Hp as [Hp|Hp].
      * exists k. split; [left | apply Hsub, Hp].
      * apply IHu in Hp as (k' & Hk' & Hp). exists k'. split; [right|]; auto.
Qed.

Section pipeline.
Context `{SetPop} (fs : filesystem) (directory : string).
Context (m : gmap nat (gset string)) (r : gmap nat (list (gset string))).
Hypothesis inventory : define_files_map fs directory = Ret m.
Hypothesis grouping : group_all_identical_photos fs m = Ret r.

Lemma inventory_files k p :
  in_bucket m k p -> exists data, fs !! p = Some (File data) /\ length data = k.
Proof.
  destruct (define_files_map_spec fs directory) as (ts & m' & _ & Hm' & Hin).
  assert (m' = m) as -> by congruence.
  intros (_ & _ & Hp)%Hin. assumption.
Qed.

Lemma grouped_bucket k gs :
  r !! k = Some gs ->
  exists b, m !! k = Some b /\ ⋃ gs = b /\ pairwise_disjoint gs /\
            Forall (fun g => g <> ∅) gs.
Proof.
  intros Hgs.
  pose proof (group_all_identical_photos_lookup fs m r grouping k) as Hlook.
  destruct (m !! k) as [b|]; [|congruence].
  destruct Hlook as (gs' & Hrun & Hr).
  assert (gs' = gs) as -> by congruence.
  apply group_photo_set_loop_partition in Hrun as (? & ? & ?).
  exists b. auto.
Qed.

Lemma all_groups_files g p :
  g ∈ all_groups r -> p ∈ g -> is_file fs p.
Proof.
  intros Hg Hp. unfold all_groups in Hg.
  apply list_elem_of_In, in_flat_map in Hg as [[k gs] [Hin Hg]].
  apply list_elem_of_In, elem_of_map_to_list in Hin.
  apply list_elem_of_In in Hg. simpl in Hg.
  destruct (grouped_bucket k gs Hin) as (b & Hb & Hunion & _).
  destruct (inventory_files k p) as (data & Hdata & _).
  - exists b. split; [assumption|]. rewrite <- Hunion.
    apply elem_of_union_list. eauto.
  - exists data. assumption.
Qed.

Lemma all_groups_disjoint : pairwise_disjoint (all_groups r).
Proof.
  unfold all_groups.
  apply (flat_groups_disjoint (map_to_list r) (fun k => default ∅ (m !! k))).
  - apply NoDup_fst_map_to_list.
  - intros k gs Hin%elem_of_map_to_list.
    destruct (grouped_bucket k gs Hin) as (b & -> & <- & Hd & _).
    split; [assumption | reflexivity].
  - intros k1 k2 Hne p Hp1 Hp2.
    destruct (m !! k1) as [b1|] eqn:H1; [|set_solver].
    destruct (m !! k2) as [b2|] eqn:H2; [|set_solver].
    simpl in *.
    destruct (inventory_files k1 p) as (d1 & Hd1 & Hl1); [exists b1; auto|].
    destruct (inventory_files k2 p) as (d2 & Hd2 & Hl2); [exists b2; auto|].
    congruence.
Qed.
End pipeline.

(** ** The groups do not depend on the seeds *)

Lemma same_content_self fs s p : p ∈ s -> p ∈ same_content fs s p.
Proof. intros Hp. apply elem_of_filter. auto. Qed.

Section seed_independence.
Context `{SetPop} (fs : filesystem).

(** On regular files the group of a set is the set of the files with
    the bytes of the seed. *)
Lemma group_equal_files_class (s g : gset string) :
  s <> ∅ -> (forall p, p ∈ s -> is_file fs p) ->
  group_equal_files fs s = Ret g ->
  g = same_content fs s (set_pop s).
Proof.
  intros Hs Hfiles Hrun. apply set_eq. intros q.
  rewrite (group_equal_files_spec fs s g Hs Hrun q).
  unfold same_content. rewrite elem_of_filter.
  pose proof (set_pop_elem s Hs) as Hseed.
  destruct (Hfiles _ Hseed) as [ds Hds]. split.
  - intros [->|(Hq & _ & Hcmp)]; [auto|].
    apply filecmp_cmp_true in Hcmp as (data & H1 & H2). split; congruence.
  - intros [Heq Hq]. destruct (decide (q = set_pop s)) as [->|Hne]; [auto|].
    right. repeat split; try assumption.
    apply filecmp_cmp_true. exists ds. split; congruence.
Qed.

(** The groups emitted for a set of regular files are exactly its
    classes of files with the same bytes. *)
Lemma group_photo_set_loop_classes fuel (s : gset string) gs :
  (forall p, p ∈ s -> is_file fs p) ->
  group_photo_set_loop fuel fs s = Ret gs ->
  forall g, g ∈ gs <-> exists p, p ∈ s /\ g = same_content fs s p.
Proof.
  revert s gs. induction fuel as [|fuel IH]; intros s gs Hfiles; simpl;
    destruct (decide (s = ∅)) as [->|Hs]; try discriminate.
  - intros [= <-] g. split; [intros Hg; inversion Hg | set_solver].
  - intros [= <-] g. split; [intros Hg; inversion Hg | set_solver].
  - intros Hrun g.
    apply bind_Ret in Hrun as [g0 [Hg0 Hrun]].
    apply bind_Ret in Hrun as [rest [Hrest [= <-]]].
    pose proof (group_equal_files_class s g0 Hs Hfiles Hg0) as Hclass.
    pose proof (set_pop_elem s Hs) as Hseed.
    assert (Hrestrict : forall p, p ∈ s ∖ g0 ->
              same_content fs (s ∖ g0) p = same_content fs s p).
    { intros p [Hp Hpg]%elem_of_difference. apply set_eq. intros q.
      unfold same_content. rewrite !elem_of_filter, elem_of_difference.
      split; [tauto|]. intros [Heq Hq]. repeat split; try assumption.
      intros Hqg. apply Hpg. rewrite Hclass in Hqg |- *.
      apply elem_of_filter in Hqg as [Hqs _].
      apply elem_of_filter. split; [congruence | assumption]. }
    assert (IH' := IH (s ∖ g0) rest
              (fun p Hp => Hfiles p (proj1 (proj1 (elem_of_difference _ _ _) Hp)))
              Hrest g).
    rewrite elem_of_cons, IH'. split.
    + intros [->|(p & Hp & ->)].
      * exists (set_pop s). auto.
      * exists p. split; [set_solver | apply Hrestrict, Hp].
    + intros (p & Hp & ->).
      destruct (decide (p ∈ g0)) as [Hin|Hout].
      * left. rewrite Hclass in Hin |- *.
        apply elem_of_filter in Hin as [Heq _].
        apply set_eq. intros q. unfold same_content.
        rewrite !elem_of_filter, Heq. tauto.
      * right. exists p. assert (Hp' : p ∈ s ∖ g0) by set_solver.
        split; [assumption | symmetry; apply Hrestrict, Hp'].
Qed.
End seed_independence.

Lemma pairwise_disjoint_NoDup (gs : list (gset string)) :
  pairwise_disjoint gs -> Forall (fun g => g <> ∅) gs -> NoDup gs.
Proof.
  induction gs as [|g gs IH]; intros Hd Hne; [constructor|].
  destruct Hd as [Hg Hd]. apply Forall_cons in Hne as [Hgne Hne].
  constructor; [|auto].
  intros Hin. apply Hgne. apply set_eq. intros q. split; [|set_solver].
  intros Hq. exfalso. apply (Hg q Hq). apply elem_of_union_list. eauto.
Qed.

(** Whatever [set.pop()] returns, a set of regular files is split into the
    same groups, up to their order. *)
Lemma group_photo_set_seed_independent (pop1 pop2 : SetPop)
    (fs : filesystem) (s : gset string) gs1 gs2 :
  (forall p, p ∈ s -> is_file fs p) ->
  @group_photo_set pop1 fs s = Ret gs1 ->
  @group_photo_set pop2 fs s = Ret gs2 ->
  gs1 ≡ₚ gs2.
Proof.
  intros Hfiles H1 H2.
  destruct (group_photo_set_loop_partition fs _ _ _ H1) as (_ & Hd1 & Hn1).
  destruct (group_photo_set_loop_partition fs _ _ _ H2) as (_ & Hd2 & Hn2).
  apply NoDup_Permutation; try (apply pairwise_disjoint_NoDup; assumption).
  intros g.
  rewrite (group_photo_set_loop_classes fs _ _ _ Hfiles H1 g).
  rewrite (group_photo_set_loop_classes fs _ _ _ Hfiles H2 g).
  reflexivity.
Qed.





Lemma target_made_Ret fs target_directory fs1 :
  target_made fs target_directory = Ret fs1 ->
  only_adds_directories fs fs1 /\
  (os_path_exists fs target_directory = true -> fs1 = fs).
Proof.
  unfold target_made. destruct (os_path_exists fs target_directory); simpl.
  - intros [= <-]. split; [apply only_adds_directories_refl | reflexivity].
  - intros [_ Hadd]%os_makedirs_Ret. split; [assumption | discriminate].
Qed.

Lemma target_made_not_OutOfFuel fs target_directory :
  target_made fs target_directory <> OutOfFuel.
Proof.
  unfold target_made. destruct (negb _); [|discriminate].
  apply os_makedirs_not_OutOfFuel.
Qed.


(** The relocation stage on the groups of an inventory of the same file
    system: it fails when the target directory cannot be made, and
    otherwise returns the number of planned moves, in either mode. *)
Lemma move_identical_files_planned `{SetPop} (st : state)
    (directory target_directory : string) (dry_run : bool) m r :
  define_files_map (disk st) directory = Ret m ->
  group_all_identical_photos (disk st) m = Ret r ->
  match target_made (disk st) target_directory with
  | Ret fs1 =>
      exists st',
        move_identical_files st r target_directory dry_run
        = Ret (st', planned (all_groups r)) /\
        (dry_run = true -> disk st' = fs1)
  | Raise e => move_identical_files st r target_directory dry_run = Raise e
  | OutOfFuel => False
  end.
Proof.
  intros Hm Hr. unfold move_identical_files.
  fold (target_made (disk st) target_directory).
  destruct (target_made (disk st) target_directory) as [fs1|e|] eqn:Hmade;
    simpl.
  - apply target_made_Ret in Hmade as [Hadd _].
    rewrite move_groups_unfold.
    destruct (move_group_list_files target_directory dry_run (all_groups r)
                (State fs1 (log st)) 0) as (st' & Hrun & Hdry).
    + exact (all_groups_disjoint (disk st) directory m r Hm Hr).
    + intros g p Hg Hp. simpl.
      apply (is_file_only_adds (disk st)); [assumption|].
      exact (all_groups_files (disk st) directory m r Hm Hr g p Hg Hp).
    + exists st'. auto.
  - reflexivity.
  - exact (target_made_not_OutOfFuel _ _ Hmade).
Qed.

(** ** The run *)

(** On any file system the inventory and the grouping stage return. *)
Lemma inventory_and_grouping_return `{SetPop} (fs : filesystem)
    (directory : string) :
  exists m r,
    define_files_map fs directory = Ret m /\
    group_all_identical_photos fs m = Ret r /\
    (forall k p, in_bucket m k p -> is_file fs p).
Proof.
  destruct (define_files_map_spec fs directory) as (ts & m & _ & Hm & Hin).
  assert (Hfiles : forall k p, in_bucket m k p -> is_file fs p).
  { intros k p (_ & _ & data & Hdata & _)%Hin. exists data. assumption. }
  destruct (group_all_identical_photos_total fs m) as [r Hr].
  { intros k b p Hk Hp. destruct (Hfiles k p) as [data ->]; [exists b; auto|].
    eauto. }
  exists m, r. auto.
Qed.

Lemma disk_emit r st : disk (emit r st) = disk st.
Proof. reflexivity. Qed.

Lemma disk_before_moving st directory target_directory r :
  disk (before_moving st directory target_directory r) = disk st.
Proof.
  unfold before_moving. destruct (String.eqb target_directory ""); reflexivity.
Qed.

(** The run, stage by stage. *)
Lemma clean_identical_files_stages `{SetPop} (st : state)
    (directory target_directory : string) (dry_run : bool) :
  exists m r,
    define_files_map (disk st) directory = Ret m /\
    group_all_identical_photos (disk st) m = Ret r /\
    clean_identical_files st directory target_directory dry_run =
    match move_identical_files
            (before_moving st directory target_directory r) r
            target_directory dry_run with
    | Ret (st', n) => (emit (InfoDuplicated n) st', Ret PyNone)
    | Raise e =>
        (before_moving st directory target_directory r, Raise e)
    | OutOfFuel =>
        (before_moving st directory target_directory r, OutOfFuel)
    end.
Proof.
  destruct (inventory_and_grouping_return (disk st) directory)
    as (m & r & Hm & Hr & _).
  exists m, r. split; [assumption|]. split; [assumption|].
  unfold clean_identical_files, before_moving.
  destruct (String.eqb target_directory ""); rewrite ?disk_emit, Hm, Hr;
    reflexivity.
Qed.

(** C8: when the target directory is not there, the relocation stage
    makes it before it looks at any group, in either mode: the stage is
    the loop over the groups started on the file system with the new
    directory, and after a dry run, or when no group has two members, that
    file system is the one left behind. *)
Theorem C8_target_directory_created (st : state)
    (d : gmap nat (list (gset string))) (target_directory : string)
    (dry_run : bool) :
  os_path_exists (disk st) target_directory = false ->
  os_makedirs (disk st) target_directory <> OutOfFuel /\
  (forall e, os_makedirs (disk st) target_directory = Raise e ->
             move_identical_files st d target_directory dry_run = Raise e) /\
  (forall fs1, os_makedirs (disk st) target_directory = Ret fs1 ->
     fs1 !! target_directory = Some (Dir true) /\
     move_identical_files st d target_directory dry_run =
       move_groups (State fs1 (log st)) d target_directory dry_run /\
     (dry_run = true \/ (forall g, g ∈ all_groups d -> size g <= 1) ->
      exists st' n,
        move_identical_files st d target_directory dry_run = Ret (st', n) /\
        disk st' = fs1 /\
        disk st' !! target_directory = Some (Dir true))).
Proof.
  intros Hmissing. split; [apply os_makedirs_not_OutOfFuel|].
  unfold move_identical_files. rewrite Hmissing. simpl. split.
  - intros e ->. reflexivity.
  - intros fs1 Hmk. rewrite Hmk. simpl.
    apply os_makedirs_Ret in Hmk as [Htarget _].
    split; [assumption|]. split; [reflexivity|].
    intros Hquiet. rewrite move_groups_unfold.
    enough (Hloop : forall gs st0 n0,
              (dry_run = true \/ forall g, g ∈ gs -> size g <= 1) ->
              exists st' n, for_each (move_group target_directory dry_run) gs
                              (st0, n0) = Ret (st', n) /\ disk st' = disk st0).
    { destruct (Hloop (all_groups d) (State fs1 (log st)) 0 Hquiet)
        as (st' & n & Hrun & Hdisk).
      exists st', n. simpl in Hdisk. rewrite Hdisk. auto. }
    induction gs as [|g gs IH]; intros st0 n0 Hgs; cbn [for_each].
    + exists st0, n0. auto.
    + assert (Hstep : exists st1 n1,
                move_group target_directory dry_run (st0, n0) g = Ret (st1, n1)
                /\ disk st1 = disk st0).
      { unfold move_group. destruct (Nat.ltb 1 (size g)) eqn:Hsize.
        - destruct Hgs as [->|Hsmall].
          + apply Nat.ltb_lt in Hsize.
            destruct (relocation_plan g Hsize) as (cands & keep & -> & _).
            simpl.
            pose proof (move_file_list_dry st0 cands target_directory n0) as Hd.
            destruct (move_file_list st0 cands target_directory n0 true)
              as [st1 n1]. eauto.
          + apply Nat.ltb_lt in Hsize. specialize (Hsmall g). 
            assert (size g <= 1) by (apply Hsmall; left). lia.
        - eauto. }
      destruct Hstep as (st1 & n1 & -> & Hdisk1). cbn [bind].
      destruct (IH st1 n1) as (st' & n & Hrun & Hdisk).
      { destruct Hgs as [?|Hsmall]; [auto|]. right. intros g' Hg'.
        apply Hsmall. right. assumption. }
      exists st', n. split; [assumption | congruence].
Qed.

(** C9: in [move_file_list] a path that is no longer there is passed over,
    nothing logged and nothing counted; a path that is there is counted
    before the move is tried, in a dry run as in a real one, so that a move
    that then fails is in the count all the same. *)
Theorem C9_counted_before_moved (st : state) (f : string)
    (rest : list string) (destination : string) (n : nat) :
  (os_path_exists (disk st) f = false ->
   forall dry_run,
     move_file_list st (f :: rest) destination n dry_run =
     move_file_list st rest destination n dry_run) /\
  (os_path_exists (disk st) f = true ->
   (forall dry_run, exists st',
      move_file_list st (f :: rest) destination n dry_run =
      move_file_list st' rest destination (n + 1) dry_run) /\
   move_file_list st [f] destination n true =
     (emit (DebugToBeMoved f) st, n + 1) /\
   (forall e, shutil_move (disk st) f destination = Raise e ->
      move_file_list st [f] destination n false =
        (emit (ErrorFailureMoving f e) st, n + 1))).
Proof.
  split.
  - intros Hf dry_run. rewrite move_file_list_cons, move_one_missing; auto.
  - intros Hf. split; [|split].
    + intros dry_run. rewrite move_file_list_cons.
      pose proof (move_one_counts destination dry_run st n f Hf) as Hcount.
      destruct (move_one destination dry_run (st, n) f) as [st' n'].
      simpl in Hcount. subst n'. eauto.
    + unfold move_file_list, move_one. simpl. rewrite Hf. reflexivity.
    + intros e He. unfold move_file_list, move_one. simpl. rewrite Hf, He.
      reflexivity.
Qed.



(** C2, amended: a run that comes to its end logs the count of relocated
    files and the exit status is 0 whatever that count is; a run stopped by
    an exception has exit status 1.  Every run does one or the other. *)
Theorem C2_exit_status `{SetPop} (st : state)
    (directory target_directory : string) (dry_run : bool) :
  exists m r,
    define_files_map (disk st) directory = Ret m /\
    group_all_identical_photos (disk st) m = Ret r /\
    match move_identical_files
            (before_moving st directory target_directory r) r
            target_directory dry_run with
    | Ret (st', n) =>
        n = planned (all_groups r) /\
        main st directory target_directory dry_run =
          (emit (InfoDuplicated n) st', Ret 0)
    | Raise e =>
        main st directory target_directory dry_run =
          (emit (LoggedException e)
             (before_moving st directory target_directory r), Ret 1)
    | OutOfFuel => False
    end.
Proof.
  destruct (clean_identical_files_stages st directory target_directory dry_run)
    as (m & r & Hm & Hr & Hrun).
  exists m, r. split; [assumption|]. split; [assumption|].
  unfold main. rewrite Hrun.
  pose proof (move_identical_files_planned
                (before_moving st directory target_directory r)
                directory target_directory dry_run m r) as Hplanned.
  rewrite disk_before_moving in Hplanned. specialize (Hplanned Hm Hr).
  destruct (target_made (disk st) target_directory) as [fs1|e|].
  - destruct Hplanned as (st' & -> & _). auto.
  - rewrite Hplanned. reflexivity.
  - contradiction.
Qed.

(** C10, amended: when the root directory is not there or cannot be
    listed, the walk yields nothing and the inventory is the empty
    dictionary, so the missing root is no error by itself.  When the target
    directory is there or can be made, the run comes to its end with a
    count of zero and exit status 0.  When the target directory is missing
    and [os.makedirs] raises on it, the run logs that exception, reports no
    count, and the exit status is 1. *)
Theorem C10_missing_root `{SetPop} (st : state)
    (directory target_directory : string) (dry_run : bool) :
  disk st !! directory = None \/ disk st !! directory = Some (Dir false) ->
  os_walk (disk st) directory = Ret [] /\
  define_files_map (disk st) directory = Ret ∅ /\
  group_all_identical_photos (disk st) ∅ = Ret ∅ /\
  match target_made (disk st) target_directory with
  | Ret fs1 =>
      main st directory target_directory dry_run =
        (emit (InfoDuplicated 0)
           (State fs1 (log (before_moving st directory target_directory ∅))),
         Ret 0)
  | Raise e =>
      os_path_exists (disk st) target_directory = false /\
      os_makedirs (disk st) target_directory = Raise e /\
      main st directory target_directory dry_run =
        (emit (LoggedException e)
           (before_moving st directory target_directory ∅), Ret 1)
  | OutOfFuel => False
  end.
Proof.
  intros Hroot.
  assert (Hwalk : os_walk (disk st) directory = Ret []).
  { unfold os_walk, os_walk_from, os_scandir.
    destruct Hroot as [-> | ->]; reflexivity. }
  assert (Hm : define_files_map (disk st) directory = Ret ∅).
  { rewrite define_files_map_unfold, Hwalk. reflexivity. }
  assert (Hr : group_all_identical_photos (disk st) ∅ = Ret ∅).
  { unfold group_all_identical_photos. rewrite map_to_list_empty. reflexivity. }
  repeat (split; [assumption|]).
  destruct (clean_identical_files_stages st directory target_directory dry_run)
    as (m & r & Hm' & Hr' & Hrun).
  assert (m = ∅) as -> by congruence. assert (r = ∅) as -> by congruence.
  unfold main. rewrite Hrun. unfold move_identical_files.
  fold (target_made (disk (before_moving st directory target_directory ∅))
          target_directory).
  rewrite disk_before_moving.
  destruct (target_made (disk st) target_directory) as [fs1|e|] eqn:Hmade;
    simpl.
  - unfold move_groups. rewrite map_to_list_empty. reflexivity.
  - unfold target_made in Hmade.
    destruct (os_path_exists (disk st) target_directory);
      [discriminate|].
    split; [reflexivity|]. split; [exact Hmade | reflexivity].
  - exact (target_made_not_OutOfFuel _ _ Hmade).
Qed.

(** ** A comparison that fails *)


Section comparison_failure.
Context `{SetPop} (fs : filesystem).




End comparison_failure.


(** ** Extensions *)

Lemma list_ascii_of_string_app (a c : string) :
  list_ascii_of_string (a ++ c) =
  (list_ascii_of_string a ++ list_ascii_of_string c)%list.
Proof.
  induction a as [|x a IH]; simpl; [reflexivity | rewrite IH; reflexivity].
Qed.

Lemma string_app_assoc (a c d : string) : a ++ c ++ d = (a ++ c) ++ d.
Proof.
  induction a as [|x a IH]; [reflexivity|].
  change (String x (a ++ c ++ d) = String x ((a ++ c) ++ d)).
  rewrite IH. reflexivity.
Qed.

Lemma has_slash_false (s : string) :
  has_slash s = false ->
  forall c, c ∈ list_ascii_of_string s -> c <> "/"%char.
Proof.
  unfold has_slash. intros Hs c Hc ->.
  assert (existsb is_slash (list_ascii_of_string s) = true); [|congruence].
  apply existsb_exists. exists "/"%char. split; [|reflexivity].
  apply list_elem_of_In. assumption.
Qed.

(** Behind a prefix that is empty or ends in a slash, a string ends in a
    slash-free suffix exactly when it does on its own. *)
Lemma endswith_behind_slash (x name suf : string) :
  has_slash suf = false ->
  x = "" \/ endswith x "/" = true ->
  endswith (x ++ name) suf = endswith name suf.
Proof.
  intros Hsuf Hx. unfold endswith. apply bool_decide_ext.
  rewrite list_ascii_of_string_app. split; [|apply suffix_app_r].
  destruct Hx as [->|Hx]; [auto|].
  apply bool_decide_eq_true in Hx as [x0 Hx0]. simpl in Hx0.
  intros [k Hk].
  apply app_eq_inv in Hk as [(k' & Hx' & Hs)|(k' & -> & Hn)].
  - destruct (decide (k' = [])) as [->|Hne].
    + simpl in Hs. rewrite Hs. reflexivity.
    + exfalso. destruct (@exists_last _ k' Hne) as (k'' & c & ->).
      rewrite Hx0 in Hx'. rewrite app_assoc in Hx'.
      apply app_inj_tail in Hx' as [_ <-].
      apply (has_slash_false suf Hsuf "/"%char); [|reflexivity].
      rewrite Hs. apply elem_of_app. left. apply elem_of_app. right. left.
  - exists k'. assumption.
Qed.

Lemma endswith_slash_app (r : string) : endswith (r ++ "/") "/" = true.
Proof.
  unfold endswith. apply bool_decide_eq_true.
  rewrite list_ascii_of_string_app. apply suffix_app_r. reflexivity.
Qed.

(** The test the program makes on the joined path is a test on the name
    of the file. *)
Lemma photo_extension_join (root name : string) :
  has_slash name = false ->
  photo_extension (os_path_join root name) = photo_extension name.
Proof.
  intros Hname. unfold os_path_join.
  rewrite (has_slash_startswith name Hname).
  assert (Hjoin : forall x, x = "" \/ endswith x "/" = true ->
            photo_extension (x ++ name) = photo_extension name).
  { intros x Hx. unfold photo_extension.
    rewrite !(endswith_behind_slash x name) by (reflexivity || assumption).
    reflexivity. }
  destruct (String.eqb root "") eqn:Hroot.
  - apply String.eqb_eq in Hroot. cbn [orb]. apply Hjoin. auto.
  - cbn [orb]. destruct (endswith root "/") eqn:Hslash.
    + apply Hjoin. auto.
    + rewrite string_app_assoc. apply Hjoin. right. apply endswith_slash_app.
Qed.

(** ** What the walk reaches *)

Lemma take_until_slash_app (l k : list ascii) :
  forallb (fun c => negb (is_slash c)) l = true ->
  k = [] \/ (exists k', k = "/"%char :: k') ->
  take_until_slash (l ++ k) = l.
Proof.
  intros Hl Hk. induction l as [|c l IH]; simpl in *.
  - destruct Hk as [->|[k' ->]]; reflexivity.
  - apply andb_true_iff in Hl as [Hc Hl]. apply negb_true_iff in Hc.
    rewrite Hc, IH by assumption. reflexivity.
Qed.

Lemma has_slash_forallb (s : string) :
  has_slash s = false ->
  forallb (fun c => negb (is_slash c)) (rev (list_ascii_of_string s)) = true.
Proof.
  intros Hs. apply forallb_forall. intros c Hc. apply negb_true_iff.
  apply in_rev in Hc. unfold has_slash in Hs.
  destruct (is_slash c) eqn:E; [|reflexivity].
  assert (existsb is_slash (list_ascii_of_string s) = true); [|congruence].
  apply existsb_exists. eauto.
Qed.

Lemma os_path_basename_behind_slash (x name : string) :
  has_slash name = false ->
  x = "" \/ endswith x "/" = true ->
  os_path_basename (x ++ name) = name.
Proof.
  intros Hname Hx. unfold os_path_basename, os_path_split. simpl.
  rewrite list_ascii_of_string_app, rev_app_distr.
  rewrite take_until_slash_app.
  - rewrite rev_involutive. apply string_of_list_ascii_of_string.
  - apply has_slash_forallb. assumption.
  - destruct Hx as [->|Hx]; [left; reflexivity|]. right.
    apply bool_decide_eq_true in Hx as [x0 Hx0]. simpl in Hx0.
    rewrite Hx0, rev_app_distr. simpl. eauto.
Qed.

Lemma os_path_basename_join (root name : string) :
  has_slash name = false ->
  os_path_basename (os_path_join root name) = name.
Proof.
  intros Hname. unfold os_path_join.
  rewrite (has_slash_startswith name Hname).
  destruct (String.eqb root "") eqn:Hroot.
  - apply String.eqb_eq in Hroot. cbn [orb].
    apply os_path_basename_behind_slash; auto.
  - cbn [orb]. destruct (endswith root "/") eqn:Hslash.
    + apply os_path_basename_behind_slash; auto.
    + rewrite string_app_assoc. apply os_path_basename_behind_slash;
        [assumption | right; apply endswith_slash_app].
Qed.

Lemma child_name_join (root name : string) :
  name <> "" -> has_slash name = false ->
  child_name root (os_path_join root name) = Some name.
Proof.
  intros Hne Hslash. unfold child_name.
  rewrite (os_path_basename_join root name Hslash), Hslash.
  apply String.eqb_neq in Hne. rewrite Hne, String.eqb_refl. reflexivity.
Qed.

(** A directory that can be listed lists every entry stored under one of
    its names. *)
Lemma os_scandir_complete fs top dirs nondirs name nd :
  os_scandir fs top = Ret (dirs, nondirs) ->
  name <> "" -> has_slash name = false ->
  fs !! os_path_join top name = Some nd ->
  match nd with
  | Dir _ => name ∈ dirs
  | File _ => name ∈ nondirs
  end.
Proof.
  unfold os_scandir. destruct (fs !! top) as [[data|[|]]|]; try discriminate.
  intros [= <- <-] Hne Hslash Hnd.
  apply elem_of_map_to_list in Hnd.
  destruct nd as [data|r]; apply list_elem_of_omap.
  - exists (os_path_join top name, File data). split; [assumption|].
    apply child_name_join; assumption.
  - exists (os_path_join top name, Dir r). split; [assumption|].
    apply child_name_join; assumption.
Qed.

Lemma walk_each_subseteq {T} (walk : string -> outcome (list T)) tops r d
    here x :
  walk_each walk tops = Ret r -> d ∈ tops -> walk d = Ret here -> x ∈ here ->
  x ∈ r.
Proof.
  revert r. induction tops as [|d0 tops IH]; intros r Hrun Hd Hhere Hx;
    [inversion Hd|].
  simpl in Hrun. apply bind_Ret in Hrun as [here0 [Hhere0 Hrun]].
  apply bind_Ret in Hrun as [rest [Hrest [= <-]]].
  apply elem_of_app. apply elem_of_cons in Hd as [->|Hd].
  - left. congruence.
  - right. exact (IH rest Hrest Hd Hhere Hx).
Qed.

(** Every directory the walk reports is one the descent comes to, with its
    listing. *)
Lemma os_walk_from_sound fuel fs top ts root ds fl :
  os_walk_from fuel fs top = Ret ts -> (root, ds, fl) ∈ ts ->
  walks_into fs top root /\ os_scandir fs root = Ret (ds, fl).
Proof.
  revert top ts. induction fuel as [|fuel IH]; intros top ts; [discriminate|].
  simpl. destruct (os_scandir fs top) as [[dirs nondirs]|e|] eqn:Hscan.
  - intros Hrun Hin.
    apply bind_Ret in Hrun as [below [Hbelow [= <-]]].
    apply elem_of_cons in Hin as [[= -> -> ->]|Hin].
    + split; [constructor | assumption].
    + destruct (walk_each_elem _ _ _ _ Hbelow Hin) as (p & here & Hp & Hd & Hx).
      apply list_elem_of_fmap in Hp as (d & -> & Hdin).
      destruct (IH _ _ Hd Hx) as [Hwalks Hlist]. split; [|assumption].
      apply os_scandir_Ret in Hscan as (Htop & Hdirs & _).
      destruct (Hdirs d Hdin) as (Hne & Hslash & r & Hdir).
      apply (walks_below fs top d root); try assumption.
      unfold os_path_isdir. rewrite Hdir. reflexivity.
  - intros [= <-] Hin. inversion Hin.
  - intros [= <-] Hin. inversion Hin.
Qed.

(** Every directory the descent comes to and can list is reported. *)
Lemma os_walk_from_complete fuel fs top ts root :
  os_walk_from fuel fs top = Ret ts ->
  walks_into fs top root -> fs !! root = Some (Dir true) ->
  exists ds fl, (root, ds, fl) ∈ ts /\ os_scandir fs root = Ret (ds, fl).
Proof.
  intros Hrun Hwalks. revert fuel ts Hrun.
  induction Hwalks as [top|top d root Htop Hne Hslash Hdir Hwalks IH];
    intros fuel ts Hrun Hroot; (destruct fuel as [|fuel]; [discriminate|]);
    simpl in Hrun.
  - destruct (os_scandir fs top) as [[dirs nondirs]|e|] eqn:Hscan.
    + apply bind_Ret in Hrun as [below [_ [= <-]]].
      exists dirs, nondirs. split; [left | reflexivity].
    + unfold os_scandir in Hscan. rewrite Hroot in Hscan. discriminate.
    + unfold os_scandir in Hscan. rewrite Hroot in Hscan. discriminate.
  - destruct (os_scandir fs top) as [[dirs nondirs]|e|] eqn:Hscan.
    + apply bind_Ret in Hrun as [below [Hbelow [= <-]]].
      unfold os_path_isdir in Hdir.
      destruct (fs !! os_path_join top d) as [[data|r]|] eqn:Hd;
        try discriminate.
      pose proof (os_scandir_complete fs top dirs nondirs d (Dir r) Hscan
                    Hne Hslash Hd) as Hin.
      assert (Hsub : exists here,
                os_walk_from fuel fs (os_path_join top d) = Ret here).
      { clear -Hbelow Hin. revert below Hbelow.
        induction dirs as [|d0 dirs IHd]; intros below Hbelow;
          [inversion Hin|].
        simpl in Hbelow. apply bind_Ret in Hbelow as [here0 [Hhere0 Hbelow]].
        apply bind_Ret in Hbelow as [rest [Hrest _]].
        apply elem_of_cons in Hin as [->|Hin]; eauto. }
      destruct Hsub as [here Hhere].
      destruct (IH fuel here Hhere Hroot) as (ds & fl & Hx & Hlist).
      exists ds, fl. split; [|assumption]. right.
      apply (walk_each_subseteq _ _ _ (os_path_join top d) here _ Hbelow);
        [|assumption | assumption].
      apply list_elem_of_fmap. eauto.
    + unfold os_scandir in Hscan. rewrite Htop in Hscan. discriminate.
    + unfold os_scandir in Hscan. rewrite Htop in Hscan. discriminate.
Qed.

(** The paths the program builds from the walk are exactly the regular
    files directly in the directories the descent comes to and can list. *)
Lemma walked_entries_spec fs directory ts p :
  os_walk fs directory = Ret ts ->
  p ∈ walked_entries ts <-> listed_below fs directory p.
Proof.
  intros Hwalk. unfold walked_entries, listed_below. split.
  - intros Hp.
    apply list_elem_of_In, in_flat_map in Hp as [[[root dirs] files] [Hin Hp]].
    apply list_elem_of_In in Hin.
    apply list_elem_of_In, list_elem_of_fmap in Hp as [name [-> Hname]].
    destruct (os_walk_from_sound _ _ _ _ _ _ _ Hwalk Hin) as [Hwalks Hlist].
    apply os_scandir_Ret in Hlist as (Hroot & _ & Hfiles).
    destruct (Hfiles name Hname) as (Hne & Hslash & data & Hdata).
    exists root, name. repeat split; try assumption. exists data. assumption.
  - intros (root & name & Hwalks & Hroot & Hne & Hslash & -> & data & Hdata).
    destruct (os_walk_from_complete _ _ _ _ _ Hwalk Hwalks Hroot)
      as (ds & fl & Hin & Hlist).
    pose proof (os_scandir_complete fs root ds fl name (File data) Hlist
                  Hne Hslash Hdata) as Hname.
    apply list_elem_of_In, in_flat_map. exists (root, ds, fl).
    split; [apply list_elem_of_In, Hin|].
    apply list_elem_of_In, list_elem_of_fmap. eauto.
Qed.

(** ** What the grouping reads *)

Section grouping_reads.
Context `{SetPop} (fs fs' : filesystem).

Lemma filecmp_cmp_agree a c :
  fs !! a = fs' !! a -> fs !! c = fs' !! c ->
  filecmp_cmp fs a c = filecmp_cmp fs' a c.
Proof. intros Ha Hc. unfold filecmp_cmp. rewrite Ha, Hc. reflexivity. Qed.

Lemma group_equal_files_agree (s : gset string) :
  (forall p, p ∈ s -> fs !! p = fs' !! p) ->
  group_equal_files fs s = group_equal_files fs' s.
Proof.
  intros Hagree. unfold group_equal_files.
  destruct (Nat.leb (size s) 0) eqn:Hsize; [reflexivity|].
  assert (Hs : s <> ∅).
  { intros ->. rewrite size_empty in Hsize. discriminate. }
  apply for_each_ext. intros c acc Hc.
  apply elem_of_elements, elem_of_difference in Hc as [Hc _].
  rewrite (filecmp_cmp_agree (set_pop s) c); auto.
  apply Hagree, set_pop_elem, Hs.
Qed.

Lemma group_photo_set_loop_agree fuel (s : gset string) :
  (forall p, p ∈ s -> fs !! p = fs' !! p) ->
  group_photo_set_loop fuel fs s = group_photo_set_loop fuel fs' s.
Proof.
  revert s. induction fuel as [|fuel IH]; intros s Hagree; simpl;
    destruct (decide (s = ∅)); try reflexivity.
  rewrite (group_equal_files_agree s Hagree).
  destruct (group_equal_files fs' s) as [g|e|]; simpl; try reflexivity.
  rewrite (IH (s ∖ g)); [reflexivity|].
  intros p Hp. apply Hagree. set_solver.
Qed.

(** The grouping stage reads the file system at the listed paths
    only. *)
Lemma group_all_identical_photos_agree (m : gmap nat (gset string)) :
  (forall k p, in_bucket m k p -> fs !! p = fs' !! p) ->
  group_all_identical_photos fs m = group_all_identical_photos fs' m.
Proof.
  intros Hagree. apply for_each_ext. intros [k b] acc Hkb.
  apply elem_of_map_to_list in Hkb. unfold group_photo_set.
  rewrite (group_photo_set_loop_agree (size b) b); [reflexivity|].
  intros p Hp. apply (Hagree k). exists b. auto.
Qed.
End grouping_reads.

(** C7: the inventory holds exactly the regular files found by the walk
    below the root whose name ends in [.arw], [.nef], [.jpg] or [.tif], in
    this very spelling (the program tests the joined path, which comes to
    the same); a path with another extension is in no bucket, and the
    grouping stage returns the same whatever is stored under it. *)
Theorem C7_inventory_keeps_photo_extensions `{SetPop} (fs : filesystem)
    (directory : string) :
  exists m,
    define_files_map fs directory = Ret m /\
    (forall p, (exists k, in_bucket m k p) <->
       exists root name,
         walks_into fs directory root /\ fs !! root = Some (Dir true) /\
         name <> "" /\ has_slash name = false /\
         p = os_path_join root name /\ is_file fs p /\
         (endswith name ".arw" = true \/ endswith name ".nef" = true \/
          endswith name ".jpg" = true \/ endswith name ".tif" = true)) /\
    (forall root name, has_slash name = false ->
       photo_extension (os_path_join root name) = photo_extension name) /\
    (photo_extension "IMG_1.JPG" = false /\
     photo_extension "IMG_1.png" = false) /\
    (forall p, photo_extension p = false ->
       (forall k, ~ in_bucket m k p) /\
       (forall nd, group_all_identical_photos (<[p := nd]> fs) m
                   = group_all_identical_photos fs m)).
Proof.
  destruct (define_files_map_spec fs directory) as (ts & m & Hwalk & Hm & Hin).
  exists m. split; [assumption|].
  assert (Hext : forall p, photo_extension p = true <->
            endswith p ".arw" = true \/ endswith p ".nef" = true \/
            endswith p ".jpg" = true \/ endswith p ".tif" = true).
  { intros p. unfold photo_extension. rewrite !orb_true_iff. tauto. }
  assert (Hout : forall p, photo_extension p = false ->
            forall k, ~ in_bucket m k p).
  { intros p Hp k (_ & Htrue & _)%Hin. congruence. }
  split; [|split; [|split; [split; reflexivity|]]].
  - intros p. split.
    + intros [k (Hp & Hphoto & data & Hdata & _)%Hin].
      apply (walked_entries_spec fs directory ts p Hwalk) in Hp
        as (root & name & Hwalks & Hroot & Hne & Hslash & -> & Hfile).
      exists root, name. repeat (split; [assumption|]).
      split; [reflexivity|]. split; [assumption|].
      apply Hext. rewrite <- (photo_extension_join root name Hslash).
      assumption.
    + intros (root & name & Hwalks & Hroot & Hne & Hslash & -> & Hfile & Hname).
      destruct Hfile as [data Hdata].
      exists (length data). apply Hin. split; [|split].
      * apply (walked_entries_spec fs directory ts _ Hwalk).
        exists root, name. repeat (split; [assumption|]).
        split; [reflexivity | exists data; assumption].
      * rewrite (photo_extension_join root name Hslash). apply Hext, Hname.
      * eauto.
  - intros root name. apply photo_extension_join.
  - intros p Hp. split; [apply Hout, Hp|].
    intros nd. apply group_all_identical_photos_agree.
    intros k q Hq. apply lookup_insert_ne. intros <-.
    exact (Hout p Hp k Hq).
Qed.

(** ** The worked example *)

Example photos_inventory_computed :
  define_files_map photos "photos" = Ret photos_inventory.
Proof. vm_compute. reflexivity. Qed.

(** A copy under an extension that is not listed stays out of the
    inventory. *)
Example photos_png_ignored :
  define_files_map
    (<["photos/photoA.png" := File (bytes "XXXXXXXXXX")]> photos) "photos"
  = Ret photos_inventory.
Proof. vm_compute. reflexivity. Qed.

Example photos_groups_computed :
  @group_all_identical_photos first_member photos photos_inventory
  = Ret {[10 := [photos_copies; {["photos/photoB.jpg"]}]]}.
Proof. vm_compute. reflexivity. Qed.

(** C1: on the two copies of the example the program leaves out of the
    move the least path in the order of strings, [photoA.jpg], and moves
    [photoA_copy.jpg], the member with the longest file name. *)
Theorem C1_keeps_least_path_not_longest_name :
  exclude_one_image_to_not_delete_it (sorted (elements photos_copies) true)
  = Ret ["photos/photoA_copy.jpg"] /\
  filename_length "photos/photoA.jpg"
  < filename_length "photos/photoA_copy.jpg" /\
  (let st' := fst (@clean_identical_files first_member (State photos [])
                     "photos" "dups" false) in
   disk st' !! "photos/photoA.jpg" = Some (File (bytes "XXXXXXXXXX")) /\
   disk st' !! "photos/photoA_copy.jpg" = None /\
   disk st' !! "dups/photoA_copy.jpg" = Some (File (bytes "XXXXXXXXXX"))).
Proof.
  split; [vm_compute; reflexivity|].
  split; [vm_compute; lia|].
  vm_compute. repeat split; reflexivity.
Qed.

(** C2, as stated, fails on the example: one file is relocated and the
    exit status is 0. *)
Lemma C2_exit_status_is_not_the_count :
  snd (@main first_member (State photos []) "photos" "dups" false) = Ret 0 /\
  last (log (fst (@main first_member (State photos []) "photos" "dups" false)))
  = Some (InfoDuplicated 1).
Proof. vm_compute. split; reflexivity. Qed.

Lemma C3_groups_partition_each_bucket_witness :
  exists groups,
    @group_all_identical_photos first_member photos photos_inventory
    = Ret {[10 := groups]} /\
    ⋃ groups = photos_bucket /\
    (forall i j gi gj, i <> j -> groups !! i = Some gi ->
                       groups !! j = Some gj -> gi ## gj).
Proof.
  destruct (@C3_groups_partition_each_bucket first_member photos
              photos_inventory) as (_ & _ & Hpartition).
  destruct (Hpartition _ photos_groups_computed 10 photos_bucket eq_refl)
    as (groups & Hgroups & Hunion & _ & Hdisjoint).
  exists groups. vm_compute in Hgroups. injection Hgroups as <-.
  split; [vm_compute; reflexivity|]. split; assumption.
Defined.




Lemma C8_target_directory_created_witness :
  exists st' n,
    move_identical_files (State photos []) {[10 := [photos_copies]]}
      "dups" true = Ret (st', n) /\
    disk st' !! "dups" = Some (Dir true).
Proof.
  destruct (C8_target_directory_created (State photos [])
              {[10 := [photos_copies]]} "dups" true)
    as (_ & _ & Hmade); [reflexivity|].
  destruct (Hmade (<["dups" := Dir true]> photos)) as (_ & _ & Hquiet);
    [vm_compute; reflexivity|].
  destruct Hquiet as (st' & n & Hrun & _ & Htarget); [left; reflexivity|].
  exists st', n. split; assumption.
Defined.

Lemma C9_counted_before_moved_witness :
  move_file_list (State photos_with_collision [])
    ["photos/gone.jpg"; "photos/photoA.jpg"] "dups" 0 false
  = (emit (ErrorFailureMoving "photos/photoA.jpg"
             (ShutilError "dups/photoA.jpg"))
       (State photos_with_collision []), 1).
Proof.
  destruct (C9_counted_before_moved (State photos_with_collision [])
              "photos/gone.jpg" ["photos/photoA.jpg"] "dups" 0)
    as [Hskip _].
  rewrite (Hskip eq_refl false).
  destruct (C9_counted_before_moved (State photos_with_collision [])
              "photos/photoA.jpg" [] "dups" 0)
    as [_ Hcount].
  destruct (Hcount eq_refl) as (_ & _ & Hfail).
  apply Hfail. vm_compute. reflexivity.
Defined.

(** C10, as stated, fails when the target directory cannot be made: the
    root is missing, the target lies below a regular file, and the run
    ends with the exception logged, no count reported and exit status 1. *)
Lemma C10_missing_root_ends_in_error :
  photos !! "nowhere" = None /\
  @main first_member (State photos []) "nowhere" "photos/photoA.jpg/dups" true
  = (State photos
       [InfoAnalyzing "nowhere";
        InfoTarget "photos/photoA.jpg/dups";
        DebugGroups ∅;
        DebugMoving;
        LoggedException (NotADirectoryError "photos/photoA.jpg/dups")],
     Ret 1).
Proof. split; vm_compute; reflexivity. Qed.

Lemma C10_missing_root_witness :
  define_files_map photos "nowhere" = Ret ∅ /\
  snd (@main first_member (State photos []) "nowhere" "dups" true) = Ret 0.
Proof.
  destruct (@C10_missing_root first_member (State photos []) "nowhere" "dups"
              true) as (_ & Hinventory & _ & Hrun); [left; reflexivity|].
  split; [exact Hinventory|].
  change (target_made (disk (State photos [])) "dups")
    with (Ret (<["dups" := Dir true]> photos) : outcome filesystem) in Hrun.
  rewrite Hrun. reflexivity.
Defined.

(** * Further properties *)

(** ** Filing a path under its size *)

Lemma stat_size_not_OutOfFuel fs p : stat_size fs p <> OutOfFuel.
Proof. unfold stat_size. destruct (fs !! p) as [[?|?]|]; discriminate. Qed.

Lemma add_photo_unfold fs (bn : gmap nat (gset string)) (e : entry) :
  add_photo_into_map_by_filesize fs bn e =
  let* fsize := stat_size fs (entry_path e) in
  Ret (<[fsize := default ∅ (bn !! fsize) ∪ {[entry_path e]}]> bn).
Proof.
  unfold add_photo_into_map_by_filesize, os_path_getsize.
  destruct e as [s|p]; simpl; destruct (stat_size fs _) as [k| |]; simpl;
    try reflexivity;
    destruct (bn !! k) as [paths|]; simpl; try reflexivity;
    rewrite (left_id_L ∅ (∪)); reflexivity.
Qed.


(** ** The inventory *)

Lemma inventory_loop_nonempty fs (l : list string)
    (acc m : gmap nat (gset string)) :
  (forall k s, acc !! k = Some s -> s <> ∅) ->
  for_each (inventory_step fs) l acc = Ret m ->
  forall k s, m !! k = Some s -> s <> ∅.
Proof.
  intros Hacc Hrun. revert Hrun.
  apply (for_each_invariant _
           (fun _ m => forall k s, m !! k = Some s -> s <> ∅));
    [assumption|].
  intros _ e bn bn' _ Hbn Hstep k s Hs. unfold inventory_step in Hstep.
  destruct (photo_extension e); [|injection Hstep as <-; eauto].
  rewrite add_photo_unfold in Hstep.
  apply bind_Ret in Hstep as [ke [_ [= <-]]].
  destruct (decide (k = ke)) as [->|Hne].
  - rewrite lookup_insert_eq in Hs. injection Hs as <-. set_solver.
  - rewrite lookup_insert_ne in Hs by congruence. eauto.
Qed.

(** X2: whenever the inventory of a directory is returned, no bucket of
    it is empty, every path is filed under the size of its file (an empty
    file under 0), and so under one key only. *)
Theorem X2_inventory_buckets (fs : filesystem) (directory : string)
    (m : gmap nat (gset string)) :
  define_files_map fs directory = Ret m ->
  (forall k s, m !! k = Some s -> s <> ∅) /\
  (forall k p, in_bucket m k p -> stat_size fs p = Ret k) /\
  (forall k k' p, in_bucket m k p -> in_bucket m k' p -> k = k') /\
  (forall p, in_bucket m 0 p <->
     (exists k, in_bucket m k p) /\ fs !! p = Some (File [])).
Proof.
  intros Hret.
  destruct (define_files_map_spec fs directory)
    as (ts & m' & Hwalk & Hm & Hin).
  assert (m' = m) as -> by congruence.
  assert (Hsize : forall k p, in_bucket m k p -> stat_size fs p = Ret k).
  { intros k p (_ & _ & data & Hdata & <-)%Hin. unfold stat_size.
    rewrite Hdata. reflexivity. }
  split; [|split; [assumption|split]].
  - rewrite define_files_map_unfold, Hwalk in Hm. simpl in Hm.
    apply (inventory_loop_nonempty fs (walked_entries ts) ∅ m); [|assumption].
    intros k s Hs. rewrite lookup_empty in Hs. discriminate.
  - intros k k' p Hk Hk'. apply Hsize in Hk, Hk'. congruence.
  - intros p. split.
    + intros H0. split; [eauto|].
      apply Hin in H0 as (_ & _ & data & Hdata & Hlen).
      destruct data; [assumption | discriminate].
    + intros [[k Hk] Hempty].
      pose proof (Hsize k p Hk) as Hk0. unfold stat_size in Hk0.
      rewrite Hempty in Hk0. injection Hk0 as <-. assumption.
Qed.

(** ** More on the groups *)

Lemma set_pop_singleton `{SetPop} (p : string) : set_pop {[p]} = p.
Proof.
  assert (Hin : set_pop {[p]} ∈ ({[p]} : gset string)).
  { apply set_pop_elem. set_solver. }
  apply elem_of_singleton in Hin. assumption.
Qed.

Lemma group_equal_files_singleton `{SetPop} (fs : filesystem) (p : string) :
  group_equal_files fs {[p]} = Ret {[p]}.
Proof.
  unfold group_equal_files. rewrite size_singleton, set_pop_singleton.
  cbn [Nat.leb]. rewrite difference_diag_L, elements_empty. reflexivity.
Qed.

Lemma group_photo_set_singleton `{SetPop} (fs : filesystem) (p : string) :
  group_photo_set fs {[p]} = Ret [{[p]}].
Proof.
  unfold group_photo_set. rewrite size_singleton.
  cbn [group_photo_set_loop].
  destruct (decide (({[p]} : gset string) = ∅)) as [Hempty|_]; [set_solver|].
  rewrite group_equal_files_singleton. cbn [bind].
  rewrite difference_diag_L.
  destruct (decide ((∅ : gset string) = ∅)) as [_|Hne]; [reflexivity|].
  contradiction.
Qed.

(** X3: a bucket of one path is its own single group, and no file is
    compared for it: when every bucket holds one path the grouping stage
    returns every bucket as one group whatever the file system holds by
    then, the listed files gone or not. *)
Theorem X3_single_paths_are_not_compared `{SetPop} (fs : filesystem)
    (m : gmap nat (gset string)) :
  (forall k b, m !! k = Some b -> size b = 1) ->
  group_all_identical_photos fs m = Ret ((fun b => [b]) <$> m).
Proof.
  intros Hone.
  assert (Hbucket : forall k b, m !! k = Some b ->
            group_photo_set fs b = Ret [b]).
  { intros k b Hk. destruct (size_1_elem_of b (Hone k b Hk)) as [p Hp].
    apply leibniz_equiv in Hp. subst b. apply group_photo_set_singleton. }
  assert (Hreturns : exists r, group_all_identical_photos fs m = Ret r).
  { apply for_each_total. intros [k b] acc Hkb.
    apply elem_of_map_to_list in Hkb.
    rewrite (Hbucket k b Hkb). simpl. eauto. }
  destruct Hreturns as [r Hr]. rewrite Hr. f_equal. apply map_eq. intros k.
  pose proof (group_all_identical_photos_lookup fs m r Hr k) as Hlook.
  rewrite lookup_fmap. destruct (m !! k) as [b|] eqn:Hk; simpl.
  - destruct Hlook as (gs & Hgs & ->). rewrite (Hbucket k b Hk) in Hgs.
    congruence.
  - assumption.
Qed.

(** X4: two files of the inventory filed under the same size are put in
    the same group exactly when they hold the same bytes: no duplicate is
    missed, and files of one size with different bytes are kept apart. *)
Theorem X4_same_group_iff_same_bytes `{SetPop} (fs : filesystem)
    (directory : string) :
  exists m r,
    define_files_map fs directory = Ret m /\
    group_all_identical_photos fs m = Ret r /\
    forall k p q, in_bucket m k p -> in_bucket m k q ->
      (exists groups g, r !! k = Some groups /\ g ∈ groups /\ p ∈ g /\ q ∈ g)
      <-> fs !! p = fs !! q.
Proof.
  destruct (inventory_and_grouping_return fs directory)
    as (m & r & Hm & Hr & Hfiles).
  exists m, r. split; [assumption|]. split; [assumption|].
  intros k p q [b [Hk Hp]] [b' [Hk' Hq]].
  assert (b' = b) as -> by congruence.
  pose proof (group_all_identical_photos_lookup fs m r Hr k) as Hlook.
  rewrite Hk in Hlook. destruct Hlook as (gs & Hgs & Hrk).
  assert (Hclasses := group_photo_set_loop_classes fs (size b) b gs
            (fun x Hx => Hfiles k x (ex_intro _ b (conj Hk Hx))) Hgs).
  split.
  - intros (groups & g & Hgroups & Hg & Hpg & Hqg).
    assert (groups = gs) as -> by congruence.
    apply Hclasses in Hg as (x & _ & ->).
    apply elem_of_filter in Hpg as [Hpx _].
    apply elem_of_filter in Hqg as [Hqx _]. congruence.
  - intros Hsame. exists gs, (same_content fs b p).
    split; [assumption|]. split; [apply Hclasses; eauto|].
    split; apply elem_of_filter; auto.
Qed.

(** X5: the groups do not depend on which member [set.pop()] returns: two
    runs of the grouping stage on one inventory give, key by key, the same
    groups, in some order. *)
Theorem X5_groups_whatever_pop_returns (pop1 pop2 : SetPop)
    (fs : filesystem) (directory : string) :
  exists m r1 r2,
    define_files_map fs directory = Ret m /\
    @group_all_identical_photos pop1 fs m = Ret r1 /\
    @group_all_identical_photos pop2 fs m = Ret r2 /\
    forall k, match r1 !! k, r2 !! k with
              | Some groups1, Some groups2 => groups1 ≡ₚ groups2
              | None, None => m !! k = None
              | _, _ => False
              end.
Proof.
  destruct (@inventory_and_grouping_return pop1 fs directory)
    as (m & r1 & Hm & H1 & Hfiles).
  destruct (@inventory_and_grouping_return pop2 fs directory)
    as (m' & r2 & Hm' & H2 & _).
  assert (m' = m) as -> by congruence.
  exists m, r1, r2. repeat (split; [assumption|]). intros k.
  pose proof (@group_all_identical_photos_lookup pop1 fs m r1 H1 k) as L1.
  pose proof (@group_all_identical_photos_lookup pop2 fs m r2 H2 k) as L2.
  destruct (m !! k) as [b|] eqn:Hk.
  - destruct L1 as (gs1 & Hgs1 & ->). destruct L2 as (gs2 & Hgs2 & ->).
    apply (group_photo_set_seed_independent pop1 pop2 fs b); try assumption.
    intros p Hp. apply (Hfiles k). exists b. auto.
  - rewrite L1, L2. reflexivity.
Qed.

Lemma size_union_list_disjoint (gs : list (gset string)) :
  pairwise_disjoint gs -> size (⋃ gs) = sum_list_with size gs.
Proof.
  induction gs as [|g gs IH]; intros Hd.
  - change (size (∅ : gset string) = 0). apply size_empty.
  - destruct Hd as [Hg Hd].
    change (size (g ∪ ⋃ gs) = size g + sum_list_with size gs).
    rewrite size_union by assumption.
    rewrite IH by assumption. reflexivity.
Qed.

Lemma size_nonempty (g : gset string) : g <> ∅ -> 1 <= size g.
Proof.
  intros Hg. destruct (size g) eqn:E; [|lia].
  apply size_empty_iff, leibniz_equiv in E. contradiction.
Qed.

(** As many planned moves as members, less one for each group. *)
Lemma planned_plus_groups (gs : list (gset string)) :
  pairwise_disjoint gs -> Forall (fun g => g <> ∅) gs ->
  planned gs + length gs = size (⋃ gs).
Proof.
  intros Hd Hne. rewrite (size_union_list_disjoint gs Hd). clear Hd.
  induction Hne as [|g gs Hg Hne IH]; [reflexivity|].
  unfold planned in *. simpl. pose proof (size_nonempty g Hg). lia.
Qed.

(** X6: the grouping stage returns a dictionary with the keys of the one
    it is given; under each key the groups are non-empty and no more than
    the bucket has members, none for an empty bucket only. *)
Theorem X6_groups_under_the_same_keys `{SetPop} (fs : filesystem)
    (m : gmap nat (gset string)) (r : gmap nat (list (gset string))) :
  group_all_identical_photos fs m = Ret r ->
  forall k, match m !! k, r !! k with
            | Some b, Some groups =>
                Forall (fun g => g <> ∅ /\ g ⊆ b) groups /\
                length groups <= size b /\
                (groups = [] <-> b = ∅)
            | None, None => True
            | _, _ => False
            end.
Proof.
  intros Hr k.
  pose proof (group_all_identical_photos_lookup fs m r Hr k) as Hlook.
  destruct (m !! k) as [b|]; [|rewrite Hlook; exact I].
  destruct Hlook as (gs & Hgs & ->).
  destruct (group_photo_set_loop_partition fs _ _ _ Hgs) as (Hu & Hd & Hne).
  pose proof (planned_plus_groups gs Hd Hne) as Hcount. rewrite Hu in Hcount.
  split; [|split; [lia|]].
  - apply Forall_forall. intros g Hg. split.
    + rewrite Forall_forall in Hne. apply Hne, Hg.
    + rewrite <- Hu. intros q Hq. apply elem_of_union_list. eauto.
  - split.
    + intros ->. rewrite <- Hu. reflexivity.
    + intros ->. destruct gs as [|g gs]; [reflexivity|].
      apply Forall_cons in Hne as [Hg _]. exfalso. apply Hg.
      simpl in Hu. set_solver.
Qed.

(** ** More on the relocation *)

Lemma move_file_list_app st (l1 l2 : list string) destination n dry_run :
  move_file_list st (l1 ++ l2) destination n dry_run =
  move_file_list (fst (move_file_list st l1 destination n dry_run)) l2
    destination (snd (move_file_list st l1 destination n dry_run)) dry_run.
Proof.
  unfold move_file_list. rewrite fold_left_app.
  destruct (fold_left _ l1 (st, n)). reflexivity.
Qed.

Lemma candidates_of_small (g : gset string) :
  size g <= 1 -> candidates_of g = [].
Proof.
  intros Hsize. unfold candidates_of.
  destruct (Nat.ltb 1 (size g)) eqn:E; [|reflexivity].
  apply Nat.ltb_lt in E. lia.
Qed.

(** The candidates of a group of two or more: all its members but the
    least path, each once. *)
Lemma candidates_of_plan (g : gset string) :
  1 < size g ->
  exists keep,
    keep ∈ g /\
    (forall q, q ∈ g -> String.le keep q) /\
    NoDup (candidates_of g) /\
    (forall q, q ∈ candidates_of g <-> q ∈ g /\ q <> keep) /\
    length (candidates_of g) = size g - 1 /\
    exclude_one_image_to_not_delete_it (sorted (elements g) true)
    = Ret (candidates_of g).
Proof.
  intros Hsize.
  destruct (relocation_plan g Hsize)
    as (cands & keep & Hex & Hkeep & Hmin & Hnd & Hmem & Hlen).
  assert (Hc : candidates_of g = cands).
  { unfold candidates_of. apply Nat.ltb_lt in Hsize. rewrite Hsize.
    unfold exclude_one_image_to_not_delete_it in Hex.
    destruct (sorted (elements g) true); [discriminate|].
    injection Hex as <-. reflexivity. }
  rewrite Hc. exists keep. auto 10.
Qed.

Lemma move_group_candidates target_directory dry_run st n (g : gset string) :
  move_group target_directory dry_run (st, n) g =
  Ret (move_file_list st (candidates_of g) target_directory n dry_run).
Proof.
  unfold move_group. destruct (Nat.ltb 1 (size g)) eqn:Hsize.
  - apply Nat.ltb_lt in Hsize.
    destruct (candidates_of_plan g Hsize) as (keep & _ & _ & _ & _ & _ & ->).
    reflexivity.
  - apply Nat.ltb_ge in Hsize. rewrite (candidates_of_small g Hsize).
    reflexivity.
Qed.

Lemma surjective_pairing_state (r : state * nat) : r = (fst r, snd r).
Proof. destruct r. reflexivity. Qed.

Lemma move_group_list_candidates target_directory dry_run gs st n :
  for_each (move_group target_directory dry_run) gs (st, n) =
  Ret (move_file_list st (all_candidates gs) target_directory n dry_run).
Proof.
  revert st n. induction gs as [|g gs IH]; intros st n; [reflexivity|].
  cbn [for_each]. rewrite move_group_candidates. cbn [bind].
  unfold all_candidates. cbn [flat_map]. rewrite move_file_list_app.
  rewrite (surjective_pairing_state
             (move_file_list st (candidates_of g) target_directory n dry_run))
    at 1.
  apply IH.
Qed.

(** The relocation stage, once the target directory is there, is one run
    of [move_file_list] over the candidates of all the groups. *)
Lemma move_identical_files_one_pass (st : state)
    (d : gmap nat (list (gset string))) (target_directory : string)
    (dry_run : bool) :
  match target_made (disk st) target_directory with
  | Ret fs1 =>
      move_identical_files st d target_directory dry_run =
      Ret (move_file_list (State fs1 (log st))
             (all_candidates (all_groups d)) target_directory 0 dry_run)
  | Raise e => move_identical_files st d target_directory dry_run = Raise e
  | OutOfFuel => False
  end.
Proof.
  unfold move_identical_files. fold (target_made (disk st) target_directory).
  destruct (target_made (disk st) target_directory) as [fs1|e|] eqn:Hmade;
    cbn [bind].
  - rewrite move_groups_unfold. apply move_group_list_candidates.
  - reflexivity.
  - exact (target_made_not_OutOfFuel _ _ Hmade).
Qed.

(** X7: of a group of two or more paths the relocation leaves out exactly
    one, the least in the order of strings, and hands every other member,
    once, to [move_file_list]. *)
Theorem X7_all_but_the_least_path (st : state) (n : nat)
    (target_directory : string) (dry_run : bool) (g : gset string) :
  1 < size g ->
  exists keep cands,
    keep ∈ g /\
    (forall q, q ∈ g -> String.le keep q) /\
    NoDup cands /\
    (forall q, q ∈ cands <-> q ∈ g /\ q <> keep) /\
    length cands = size g - 1 /\
    move_group target_directory dry_run (st, n) g =
    Ret (move_file_list st cands target_directory n dry_run).
Proof.
  intros Hsize.
  destruct (candidates_of_plan g Hsize)
    as (keep & Hkeep & Hmin & Hnd & Hmem & Hlen & _).
  exists keep, (candidates_of g).
  repeat (split; [assumption|]). apply move_group_candidates.
Qed.

(** X8: whatever groups it is given, the relocation stage raises only
    when the target directory cannot be made; otherwise it is one run of
    [move_file_list] over the candidates of all the groups, so that no
    move that fails keeps the later ones from being tried. *)
Theorem X8_relocation_is_one_pass (st : state)
    (d : gmap nat (list (gset string))) (target_directory : string)
    (dry_run : bool) :
  (os_path_exists (disk st) target_directory = true ->
   move_identical_files st d target_directory dry_run =
   Ret (move_file_list st (all_candidates (all_groups d)) target_directory 0
          dry_run)) /\
  (forall e, move_identical_files st d target_directory dry_run = Raise e ->
     os_path_exists (disk st) target_directory = false /\
     os_makedirs (disk st) target_directory = Raise e) /\
  (forall fs1, os_makedirs (disk st) target_directory = Ret fs1 ->
     os_path_exists (disk st) target_directory = false ->
     move_identical_files st d target_directory dry_run =
     Ret (move_file_list (State fs1 (log st))
            (all_candidates (all_groups d)) target_directory 0 dry_run)) /\
  move_identical_files st d target_directory dry_run <> OutOfFuel.
Proof.
  pose proof (move_identical_files_one_pass st d target_directory dry_run)
    as Hpass.
  unfold target_made in Hpass.
  destruct (os_path_exists (disk st) target_directory) eqn:Hexists;
    cbn [negb] in Hpass.
  - rewrite Hpass. destruct st as [fs lg]. simpl.
    split; [reflexivity|]. split; [discriminate|].
    split; [discriminate | discriminate].
  - destruct (os_makedirs (disk st) target_directory) as [fs1|e|] eqn:Hmk;
      [| |contradiction]; rewrite Hpass;
      (split; [discriminate|]); (split; [|split; [|discriminate]]).
    + discriminate.
    + intros fs1' [= <-] _. reflexivity.
    + intros e' [= <-]. auto.
    + discriminate.
Qed.

Lemma emit_log r st : log (emit r st) = (log st ++ [r])%list.
Proof. reflexivity. Qed.

(** A dry run of [move_file_list], in full. *)
Lemma move_file_list_dry_run (st : state) (files : list string)
    (destination : string) (n : nat) :
  move_file_list st files destination n true =
  (State (disk st)
     (log st ++ map DebugToBeMoved
                  (List.filter (os_path_exists (disk st)) files)),
   n + length (List.filter (os_path_exists (disk st)) files)).
Proof.
  revert st n. induction files as [|f files IH]; intros st n.
  - simpl. rewrite app_nil_r, Nat.add_0_r. destruct st; reflexivity.
  - rewrite move_file_list_cons. unfold move_one. cbn [List.filter].
    destruct (os_path_exists (disk st) f).
    + rewrite IH, disk_emit, emit_log. cbn [map length].
      rewrite <- app_assoc. f_equal. lia.
    + apply IH.
Qed.

(** X9: a dry run of [move_file_list] leaves the file system as it is; it
    logs, in their order, the candidates that are there and none other,
    and counts as many.  When none is there, state and count come back as
    they were given. *)
Theorem X9_dry_run_lists_what_is_there (st : state) (files : list string)
    (destination : string) (n : nat) :
  move_file_list st files destination n true =
  (State (disk st)
     (log st ++ map DebugToBeMoved
                  (List.filter (os_path_exists (disk st)) files)),
   n + length (List.filter (os_path_exists (disk st)) files)) /\
  ((forall f, f ∈ files -> disk st !! f = None) ->
   move_file_list st files destination n true = (st, n)).
Proof.
  split; [apply move_file_list_dry_run|].
  intros Hgone. rewrite move_file_list_dry_run.
  assert (Hnone : List.filter (os_path_exists (disk st)) files = []).
  { induction files as [|f files IH]; [reflexivity|].
    cbn [List.filter].
    rewrite (proj2 (os_path_exists_false (disk st) f)) by (apply Hgone; left).
    apply IH. intros f' Hf'. apply Hgone. right. assumption. }
  rewrite Hnone. simpl. rewrite app_nil_r, Nat.add_0_r.
  destruct st; reflexivity.
Qed.

Lemma move_one_record destination dry_run st n f :
  os_path_exists (disk st) f = true ->
  exists r, move_record dry_run r /\
    log (fst (move_one destination dry_run (st, n) f)) = (log st ++ [r])%list.
Proof.
  intros Hf. unfold move_one. rewrite Hf. destruct dry_run.
  - exists (DebugToBeMoved f). split; reflexivity.
  - destruct (shutil_move (disk st) f destination) as [[fs' moved]|e|] eqn:Hmv.
    + exists (DebugMoved moved). split; reflexivity.
    + exists (ErrorFailureMoving f e). split; reflexivity.
    + destruct (shutil_move_not_OutOfFuel _ _ _ Hmv).
Qed.

(** X10: in either mode [move_file_list] only adds to the log, one record
    for each file it counts: a "to be moved" in a dry run, a "moved" or a
    failure otherwise; the count never goes down and goes up by no more
    than the number of candidates. *)
Theorem X10_one_record_per_counted_file (st : state) (files : list string)
    (destination : string) (n : nat) (dry_run : bool) :
  exists added,
    log (fst (move_file_list st files destination n dry_run))
    = (log st ++ added)%list /\
    Forall (move_record dry_run) added /\
    snd (move_file_list st files destination n dry_run) = n + length added /\
    length added <= length files.
Proof.
  revert st n. induction files as [|f files IH]; intros st n.
  - exists []. simpl. rewrite app_nil_r. auto.
  - rewrite move_file_list_cons.
    destruct (os_path_exists (disk st) f) eqn:Hf.
    + destruct (move_one_record destination dry_run st n f Hf) as (r & Hr & Hlog).
      pose proof (move_one_counts destination dry_run st n f Hf) as Hcount.
      destruct (move_one destination dry_run (st, n) f) as [st1 n1].
      simpl in Hlog, Hcount. subst n1.
      destruct (IH st1 (n + 1)) as (added & Hadded & Hall & Hsnd & Hlen).
      exists (r :: added). rewrite Hadded, Hlog, <- app_assoc.
      split; [reflexivity|]. split; [constructor; assumption|].
      rewrite Hsnd. simpl. split; lia.
    + rewrite (move_one_missing destination dry_run st n f Hf).
      destruct (IH st n) as (added & Hadded & Hall & Hsnd & Hlen).
      exists added. simpl. auto with lia.
Qed.

Section grouped_dictionary.
Context `{SetPop} (fs : filesystem).
Context (m : gmap nat (gset string)) (r : gmap nat (list (gset string))).
Hypothesis grouping : group_all_identical_photos fs m = Ret r.


End grouped_dictionary.


(** X13: when no group has two members nothing is moved and nothing is
    logged, in either mode; the count is 0, and all that can have changed
    is that the target directory is there. *)
Theorem X13_single_files_stay (st : state)
    (d : gmap nat (list (gset string))) (target_directory : string)
    (dry_run : bool) :
  (forall g, g ∈ all_groups d -> size g <= 1) ->
  match target_made (disk st) target_directory with
  | Ret fs1 =>
      move_identical_files st d target_directory dry_run
      = Ret (State fs1 (log st), 0) /\
      only_adds_directories (disk st) fs1
  | Raise e => move_identical_files st d target_directory dry_run = Raise e
  | OutOfFuel => False
  end.
Proof.
  intros Hsmall.
  assert (Hnone : all_candidates (all_groups d) = []).
  { unfold all_candidates.
    induction (all_groups d) as [|g gs IH]; [reflexivity|].
    cbn [flat_map]. rewrite (candidates_of_small g), IH.
    - reflexivity.
    - intros g' Hg'. apply Hsmall. right. assumption.
    - apply Hsmall. left. }
  pose proof (move_identical_files_one_pass st d target_directory dry_run)
    as Hpass.
  destruct (target_made (disk st) target_directory) as [fs1|e|] eqn:Hmade;
    try assumption.
  rewrite Hpass, Hnone. split; [reflexivity|].
  apply (target_made_Ret _ _ _ Hmade).
Qed.

(** ** What a real pass leaves behind *)

Lemma shutil_move_into_directory fs src dst fs' moved data :
  fs !! src = Some (File data) -> os_path_isdir fs dst = true ->
  shutil_move fs src dst = Ret (fs', moved) ->
  fs !! moved = None /\ fs' = <[moved := File data]> (delete src fs).
Proof.
  intros Hsrc Hdir. unfold shutil_move. rewrite Hsrc, Hdir. cbn [andb].
  destruct (os_path_exists fs (os_path_join dst (os_path_basename src)))
    eqn:Hthere; [discriminate|].
  cbn [bind]. intros [= <- <-].
  split; [apply os_path_exists_false, Hthere | reflexivity].
Qed.

(** Moving one regular file into a directory: every other entry stays as
    it is, and the bytes of the file are still somewhere, under its own
    path or under one that was free. *)
Lemma move_one_into_directory destination st n f data :
  os_path_isdir (disk st) destination = true ->
  disk st !! f = Some (File data) ->
  (forall q nd, q <> f -> disk st !! q = Some nd ->
     disk (fst (move_one destination false (st, n) f)) !! q = Some nd) /\
  exists p',
    disk (fst (move_one destination false (st, n) f)) !! p'
    = Some (File data) /\
    (p' = f \/ disk st !! p' = None).
Proof.
  intros Hdir Hf. unfold move_one.
  rewrite (is_file_exists (disk st) f (ex_intro _ data Hf)).
  destruct (shutil_move (disk st) f destination) as [[fs' moved]|e|] eqn:Hmv;
    cbn [fst disk emit].
  - destruct (shutil_move_into_directory _ _ _ _ _ _ Hf Hdir Hmv)
      as [Hfree ->].
    split.
    + intros q nd Hne Hq.
      rewrite lookup_insert_ne, lookup_delete_ne by congruence. assumption.
    + exists moved. split; [apply lookup_insert_eq | auto].
  - split; [auto|]. exists f. auto.
  - split; [auto|]. exists f. auto.
Qed.

Lemma move_file_list_into_directory destination files :
  forall st n,
    os_path_isdir (disk st) destination = true ->
    NoDup files -> (forall f, f ∈ files -> is_file (disk st) f) ->
    (forall q nd, q ∉ files -> disk st !! q = Some nd ->
       disk (fst (move_file_list st files destination n false)) !! q
       = Some nd) /\
    (forall f data, f ∈ files -> disk st !! f = Some (File data) ->
       exists p',
         disk (fst (move_file_list st files destination n false)) !! p'
         = Some (File data)).
Proof.
  induction files as [|f files IH]; intros st n Hdir Hnd Hfiles.
  - split; [auto|]. intros f data Hin. inversion Hin.
  - apply NoDup_cons in Hnd as [Hf Hnd].
    destruct (Hfiles f) as [data Hdata]; [left|].
    destruct (move_one_into_directory destination st n f data Hdir Hdata)
      as [Hkeep (p1 & Hp1 & Hfrom)].
    rewrite move_file_list_cons.
    destruct (move_one destination false (st, n) f) as [st1 n1].
    cbn [fst] in Hkeep, Hp1.
    assert (Hdir1 : os_path_isdir (disk st1) destination = true).
    { unfold os_path_isdir in *.
      destruct (disk st !! destination) as [[?|rd]|] eqn:Hdst;
        try discriminate.
      rewrite (Hkeep destination (Dir rd)); [reflexivity | | assumption].
      intros ->. congruence. }
    assert (Hfiles1 : forall f', f' ∈ files -> is_file (disk st1) f').
    { intros f' Hf'. destruct (Hfiles f') as [d' Hd']; [right; assumption|].
      exists d'. apply Hkeep; [|assumption]. intros ->. contradiction. }
    destruct (IH st1 n1 Hdir1 Hnd Hfiles1) as [IHkeep IHdata].
    split.
    + intros q nd Hq Hqnd. apply not_elem_of_cons in Hq as [Hne Hq].
      apply IHkeep; auto.
    + intros f0 data0 Hin Hf0. apply elem_of_cons in Hin as [->|Hin].
      * assert (data0 = data) as -> by congruence.
        exists p1. apply IHkeep; [|assumption].
        intros Hp1in. destruct Hfrom as [->|Hfree]; [contradiction|].
        destruct (Hfiles p1) as [d1 Hd1]; [right; assumption|]. congruence.
      * apply (IHdata f0 data0 Hin).
        apply Hkeep; [|assumption]. intros ->. contradiction.
Qed.

Lemma two_members_size (g : gset string) q q' :
  q ∈ g -> q' ∈ g -> q' <> q -> 1 < size g.
Proof.
  intros Hq Hq' Hne. destruct (size g) as [|[|k]] eqn:E; [| |lia].
  - apply size_empty_iff, leibniz_equiv in E. set_solver.
  - destruct Hne. exact (size_singleton_inv g q' q E Hq' Hq).
Qed.

(** The candidates of a group are its members that share it with a lesser
    path. *)
Lemma all_candidates_lesser_copy (gs : list (gset string)) q :
  q ∈ all_candidates gs <-> has_lesser_copy gs q.
Proof.
  unfold all_candidates, has_lesser_copy. split.
  - intros Hq. apply list_elem_of_In, in_flat_map in Hq as [g [Hg Hq]].
    apply list_elem_of_In in Hg, Hq.
    destruct (decide (1 < size g)) as [Hsize|Hsize].
    + destruct (candidates_of_plan g Hsize) as (keep & Hk & Hmin & _ & Hmem & _).
      apply Hmem in Hq as [Hqg Hne]. exists g, keep. auto 10.
    + rewrite candidates_of_small in Hq by lia. inversion Hq.
  - intros (g & q' & Hg & Hq & Hq' & Hne & Hle).
    apply list_elem_of_In, in_flat_map. exists g.
    split; [apply list_elem_of_In, Hg|]. apply list_elem_of_In.
    destruct (candidates_of_plan g (two_members_size g q q' Hq Hq' Hne))
      as (keep & Hk & Hmin & _ & Hmem & _).
    apply Hmem. split; [assumption|]. intros Heq.
    apply Hne. apply (anti_symm String.le); [assumption|].
    rewrite Heq. apply Hmin, Hq'.
Qed.

Lemma all_candidates_NoDup (gs : list (gset string)) :
  pairwise_disjoint gs -> NoDup (all_candidates gs).
Proof.
  induction gs as [|g gs IH]; intros Hd; [constructor|].
  destruct Hd as [Hg Hd]. unfold all_candidates. cbn [flat_map].
  apply NoDup_app. split; [|split; [|apply IH, Hd]].
  - destruct (decide (1 < size g)) as [Hsize|Hsize].
    + destruct (candidates_of_plan g Hsize) as (_ & _ & _ & Hnd & _).
      assumption.
    + rewrite candidates_of_small by lia. constructor.
  - intros q Hq Hq'.
    assert (Hqg : q ∈ g).
    { destruct (decide (1 < size g)) as [Hsize|Hsize].
      - destruct (candidates_of_plan g Hsize) as (keep & _ & _ & _ & Hmem & _).
        apply Hmem in Hq as [? _]. assumption.
      - rewrite candidates_of_small in Hq by lia. inversion Hq. }
    apply (all_candidates_lesser_copy gs q) in Hq'
      as (g' & _ & Hg' & Hqg' & _).
    apply (Hg q Hqg). apply elem_of_union_list. eauto.
Qed.

(** X12: unless the target is a regular file, a real pass over the groups
    of the inventory leaves every entry that does not share a group with a
    lesser path as it was: the file kept of every group, every file on its
    own, every file with another extension, everything outside the tree.
    No content is lost: the bytes of every file that was there are still
    under some path. *)
Theorem X12_real_pass_keeps_content `{SetPop} (st : state)
    (directory target_directory : string) :
  (forall data, disk st !! target_directory <> Some (File data)) ->
  exists m r,
    define_files_map (disk st) directory = Ret m /\
    group_all_identical_photos (disk st) m = Ret r /\
    match move_identical_files st r target_directory false with
    | Ret (st', n) =>
        (forall q nd, disk st !! q = Some nd ->
           ~ has_lesser_copy (all_groups r) q -> disk st' !! q = Some nd) /\
        (forall p data, disk st !! p = Some (File data) ->
           exists p', disk st' !! p' = Some (File data))
    | Raise e => target_made (disk st) target_directory = Raise e
    | OutOfFuel => False
    end.
Proof.
  intros Htarget.
  destruct (inventory_and_grouping_return (disk st) directory)
    as (m & r & Hm & Hr & _).
  exists m, r. split; [assumption|]. split; [assumption|].
  pose proof (move_identical_files_one_pass st r target_directory false)
    as Hpass.
  destruct (target_made (disk st) target_directory) as [fs1|e|] eqn:Hmade;
    [|rewrite Hpass; reflexivity | contradiction].
  rewrite Hpass.
  destruct (move_file_list (State fs1 (log st))
              (all_candidates (all_groups r)) target_directory 0 false)
    as [st' n] eqn:Hrun.
  assert (Hadd : only_adds_directories (disk st) fs1)
    by apply (target_made_Ret _ _ _ Hmade).
  assert (Hdir : os_path_isdir fs1 target_directory = true).
  { unfold target_made in Hmade. unfold os_path_isdir.
    destruct (os_path_exists (disk st) target_directory) eqn:Hexists;
      cbn [negb] in Hmade.
    - injection Hmade as <-.
      apply os_path_exists_true in Hexists as [[data|rd] Hnd];
        rewrite Hnd; [|reflexivity].
      destruct (Htarget data Hnd).
    - apply os_makedirs_Ret in Hmade as [-> _]. reflexivity. }
  destruct (move_file_list_into_directory target_directory
              (all_candidates (all_groups r)) (State fs1 (log st)) 0 Hdir)
    as [Hkeep Hdata].
  { apply all_candidates_NoDup.
    exact (all_groups_disjoint (disk st) directory m r Hm Hr). }
  { intros f (g & q' & Hg & Hfg & _)%all_candidates_lesser_copy.
    apply (is_file_only_adds (disk st)); [assumption|].
    exact (all_groups_files (disk st) directory m r Hm Hr g f Hg Hfg). }
  rewrite Hrun in Hkeep, Hdata. cbn [fst disk] in Hkeep, Hdata.
  assert (Hfrom : forall q nd, disk st !! q = Some nd -> fs1 !! q = Some nd).
  { intros q nd Hq. specialize (Hadd q). rewrite Hq in Hadd. assumption. }
  split.
  - intros q nd Hq Hnot. apply Hkeep; [|apply Hfrom, Hq].
    intros Hin. apply Hnot, all_candidates_lesser_copy, Hin.
  - intros p data Hp.
    destruct (decide (p ∈ all_candidates (all_groups r))) as [Hin|Hout].
    + apply (Hdata p data Hin). apply Hfrom, Hp.
    + exists p. apply Hkeep; [assumption | apply Hfrom, Hp].
Qed.

Lemma filter_all {A} (f : A -> bool) (l : list A) :
  (forall x, x ∈ l -> f x = true) -> List.filter f l = l.
Proof.
  induction l as [|x l IH]; intros Hall; [reflexivity|].
  cbn [List.filter]. rewrite (Hall x) by left. f_equal.
  apply IH. intros y Hy. apply Hall. right. assumption.
Qed.



Lemma handled_app cfg (l1 l2 : list log_record) :
  handled cfg (l1 ++ l2) = (handled cfg l1 ++ handled cfg l2)%list.
Proof. apply List.filter_app. Qed.

Lemma handled_silent_to_be_moved verbose (files : list string) :
  handled (configure_logger true verbose) (map DebugToBeMoved files) = [].
Proof. induction files as [|f files IH]; [reflexivity|exact IH]. Qed.

Lemma elem_of_handled cfg lg r :
  r ∈ handled cfg lg <->
  r ∈ lg /\ is_enabled_for cfg (record_level r) = true.
Proof.
  unfold handled. rewrite !list_elem_of_In, List.filter_In. reflexivity.
Qed.

(** X14: what the flags let through.  With [silent] the level is [ERROR]
    whatever [verbose] is, and only failures to move and the exception of
    the run reach the handler; with neither flag every record but the
    [DEBUG] ones does; with [verbose] alone all do.  So of a silent dry run
    no record reaches the handler unless the run ends in an exception,
    which is then the one record that does. *)
Theorem X14_what_the_flags_let_through `{SetPop} (st : state)
    (directory target_directory : string) (verbose : bool)
    (lg : list log_record) :
  configure_logger true verbose = configure_logger true (negb verbose) /\
  handled (configure_logger false true) lg = lg /\
  (forall r, r ∈ handled (configure_logger true verbose) lg <->
             r ∈ lg /\ record_level r = ERROR) /\
  (forall r, r ∈ handled (configure_logger false false) lg <->
             r ∈ lg /\ record_level r <> DEBUG) /\
  handled (configure_logger true verbose)
    (log (fst (main st directory target_directory true))) =
  (handled (configure_logger true verbose) (log st) ++
   match snd (clean_identical_files st directory target_directory true) with
   | Raise e => [LoggedException e]
   | _ => []
   end)%list.
Proof.
  split; [reflexivity|].
  split.
  { unfold handled. apply filter_all. intros r _. destruct r; reflexivity. }
  split.
  { intros r. rewrite elem_of_handled.
    split; intros [Hin Hr]; (split; [exact Hin|]);
      destruct r; try reflexivity; vm_compute in Hr; discriminate. }
  split.
  { intros r. rewrite elem_of_handled.
    split; intros [Hin Hr]; (split; [exact Hin|]);
      destruct r; try reflexivity; try discriminate;
      solve [vm_compute in Hr; discriminate | exfalso; apply Hr; reflexivity]. }
  unfold main, clean_identical_files.
  set (st0 := emit (InfoAnalyzing directory) st).
  set (st1 := if String.eqb target_directory "" then st0
              else emit (InfoTarget target_directory) st0).
  assert (Hst1 : handled (configure_logger true verbose) (log st1)
                 = handled (configure_logger true verbose) (log st)).
  { subst st1 st0. destruct (String.eqb target_directory "");
      rewrite ?emit_log, !handled_app; cbn [handled List.filter];
      rewrite ?app_nil_r; reflexivity. }
  destruct (define_files_map (disk st1) directory) as [m|e|];
    cbn [exit_status fst snd]; rewrite ?emit_log, ?handled_app, ?Hst1;
    [|reflexivity|rewrite app_nil_r; reflexivity].
  destruct (group_all_identical_photos (disk st1) m) as [r|e|];
    cbn [exit_status fst snd]; rewrite ?emit_log, ?handled_app, ?Hst1;
    [|reflexivity|rewrite app_nil_r; reflexivity].
  pose proof (move_identical_files_one_pass
                (emit DebugMoving (emit (DebugGroups r) st1)) r
                target_directory true) as Hpass.
  destruct (target_made _ target_directory) as [fs1|e|]; [| |contradiction].
  - rewrite Hpass, move_file_list_dry_run.
    cbn [exit_status fst snd disk log].
    rewrite ?emit_log. cbn [log].
    rewrite ?emit_log, !handled_app, handled_silent_to_be_moved, Hst1.
    cbn [handled List.filter]. rewrite !app_nil_r. reflexivity.
  - rewrite Hpass. cbn [exit_status fst snd].
    rewrite !emit_log, !handled_app, Hst1.
    cbn [handled List.filter]. rewrite !app_nil_r. reflexivity.
Qed.

(** ** The further properties on the example *)

Lemma all_groups_singleton (k : nat) (groups : list (gset string)) :
  all_groups {[k := groups]} = groups.
Proof.
  unfold all_groups. rewrite map_to_list_singleton. simpl.
  apply app_nil_r.
Qed.

Lemma X2_inventory_buckets_witness :
  define_files_map photos "photos" = Ret photos_inventory /\
  (forall k s, photos_inventory !! k = Some s -> s <> ∅) /\
  (forall k p, in_bucket photos_inventory k p -> stat_size photos p = Ret k) /\
  (forall k k' p, in_bucket photos_inventory k p ->
                  in_bucket photos_inventory k' p -> k = k') /\
  (forall p, in_bucket photos_inventory 0 p <->
     (exists k, in_bucket photos_inventory k p) /\
     photos !! p = Some (File [])).
Proof.
  split; [exact photos_inventory_computed|].
  apply (X2_inventory_buckets photos "photos" photos_inventory).
  exact photos_inventory_computed.
Defined.

(** A path kept alone in its bucket is grouped though no file is stored
    under it. *)
Lemma X3_single_paths_are_not_compared_witness :
  @group_all_identical_photos first_member ∅ {[10 := {["gone.jpg"]}]}
  = Ret {[10 := [{["gone.jpg"]}]]}.
Proof.
  rewrite (@X3_single_paths_are_not_compared first_member ∅
             {[10 := {["gone.jpg"]}]}).
  - rewrite map_fmap_singleton. reflexivity.
  - intros k b Hkb. apply lookup_singleton_Some in Hkb as [_ <-].
    apply size_singleton.
Defined.

Lemma X6_groups_under_the_same_keys_witness :
  exists groups,
    @group_all_identical_photos first_member photos photos_inventory
    = Ret {[10 := groups]} /\
    Forall (fun g => g <> ∅ /\ g ⊆ photos_bucket) groups /\
    length groups <= size photos_bucket.
Proof.
  exists [photos_copies; {["photos/photoB.jpg"]}].
  split; [exact photos_groups_computed|].
  pose proof (@X6_groups_under_the_same_keys first_member photos
                photos_inventory _ photos_groups_computed 10) as Hk.
  unfold photos_inventory in Hk. rewrite !lookup_singleton_eq in Hk.
  destruct Hk as (Hall & Hlen & _). split; assumption.
Defined.

Lemma X7_all_but_the_least_path_witness :
  exists keep cands,
    keep ∈ photos_copies /\
    length cands = size photos_copies - 1 /\
    move_group "dups" true (State photos [], 0) photos_copies =
    Ret (move_file_list (State photos []) cands "dups" 0 true).
Proof.
  destruct (X7_all_but_the_least_path (State photos []) 0 "dups" true
              photos_copies)
    as (keep & cands & Hkeep & _ & _ & _ & Hlen & Hmove);
    [vm_compute; lia|].
  exists keep, cands. split; [|split]; assumption.
Defined.

Lemma X13_single_files_stay_witness :
  move_identical_files (State photos []) {[10 := [{["photos/photoB.jpg"]}]]}
    "dups" false
  = Ret (State (<["dups" := Dir true]> photos) [], 0).
Proof.
  pose proof (X13_single_files_stay (State photos [])
                {[10 := [{["photos/photoB.jpg"]}]]} "dups" false) as Hstay.
  assert (Hmade : target_made photos "dups"
                  = Ret (<["dups" := Dir true]> photos))
    by (vm_compute; reflexivity).
  cbn [disk log] in Hstay. rewrite Hmade in Hstay.
  apply Hstay. intros g Hg. rewrite all_groups_singleton in Hg.
  apply list_elem_of_singleton in Hg as ->. rewrite size_singleton. lia.
Defined.

Lemma X12_real_pass_keeps_content_witness :
  exists st' n,
    move_identical_files (State photos [])
      {[10 := [photos_copies; {["photos/photoB.jpg"]}]]} "dups" false
    = Ret (st', n) /\
    disk st' !! "photos/photoB.jpg" = Some (File (bytes "YYYYYYYYYY")) /\
    exists p', disk st' !! p' = Some (File (bytes "XXXXXXXXXX")).
Proof.
  destruct (@X12_real_pass_keeps_content first_member (State photos [])
              "photos" "dups")
    as (m & r & Hm & Hr & Hpass);
    [intros data; vm_compute; discriminate|].
  cbn [disk] in Hm, Hr.
  rewrite photos_inventory_computed in Hm. injection Hm as <-.
  rewrite photos_groups_computed in Hr. injection Hr as <-.
  destruct (move_identical_files (State photos [])
              {[10 := [photos_copies; {["photos/photoB.jpg"]}]]} "dups" false)
    as [[st' n]|e|] eqn:Hrun;
    [|vm_compute in Hrun; discriminate|contradiction].
  destruct Hpass as [Hstay Hkept]. exists st', n.
  split; [reflexivity|]. split.
  - apply Hstay; [vm_compute; reflexivity|].
    intros (g & q' & Hg & Hq & Hq' & Hne & _).
    rewrite all_groups_singleton in Hg.
    apply elem_of_cons in Hg as [->|Hg].
    + vm_compute in Hq. set_solver.
    + apply list_elem_of_singleton in Hg as ->.
      apply elem_of_singleton in Hq', Hq. congruence.
  - apply (Hkept "photos/photoA_copy.jpg"). vm_compute. reflexivity.
Defined.
